(** * AgriInfo offline synchronisation core

    A shallow embedding of the sync queue and drain coordinator
    ([class AgriSync], the Kenya variant with retry bookkeeping), of the
    service worker's background sync helpers and of its fetch strategies,
    followed by the properties the specification states about them.

    Conventions of the embedding:
    - a promise is modelled by its settlement, [Completion A];
    - IndexedDB object store [syncQueue] is a [gmap] keyed by [id];
    - [this.syncQueue] is a list of item values, an in-place field write
      on an item is a write at its position in the list;
    - the three sources of nondeterminism (remote server, storage
      failures, the wall clock) are oracles of an environment [Env],
      each indexed by the number of earlier consultations. *)

From stdpp Require Import gmap strings list fin_maps.
From Stdlib Require Import Bool Lia.

(** ** JavaScript string helpers *)

Module JsString.

(** [s.startsWith(p)] *)
Fixpoint startsWith (p s : string) : bool :=
  match p, s with
  | EmptyString, _ => true
  | String a p', String b s' => if Ascii.eqb a b then startsWith p' s' else false
  | String _ _, EmptyString => false
  end.

(** [s.includes(p)]: [p] occurs at some offset of [s]. *)
Fixpoint includes (p s : string) : bool :=
  startsWith p s ||
  match s with
  | EmptyString => false
  | String _ s' => includes p s'
  end.

End JsString.

(** ** Data model *)

Definition Time := nat.

Inductive Status := pending | synced | failed.

#[global] Instance Status_eq_dec : EqDecision Status.
Proof. solve_decision. Defined.

(** The change descriptor handed to [addToQueue] by the [record*] methods. *)
Record Descriptor := {
  d_type : string;
  d_action : string;
  d_data : string;
  d_collection : string
}.

(** A queue item as [addToQueue] builds it and the coordinator extends
    it; [data] is the payload, kept as opaque text. *)
Record QueueItem := {
  id : string;
  type : string;
  action : string;
  data : string;
  collection : string;
  timestamp : Time;
  status : Status;
  attempts : nat;
  lastError : option string;
  lastAttempt : option Time;
  syncedAt : option Time
}.

#[global] Instance QueueItem_eq_dec : EqDecision QueueItem.
Proof. solve_decision. Defined.

(** The object literal passed as [updates] to [updateQueueItem]; an absent
    property is [None]. *)
Record Updates := {
  u_attempts : option nat;
  u_status : option Status;
  u_syncedAt : option Time;
  u_lastError : option string;
  u_lastAttempt : option Time
}.

(** [o.p] after [Object.assign(o, u)] for an optional property. *)
Definition assignOpt {A} (old new : option A) : option A :=
  match new with
  | Some v => Some v
  | None => old
  end.

(** [Object.assign(item, updates)] *)
Definition Object_assign (item : QueueItem) (u : Updates) : QueueItem :=
  {| id := id item;
     type := type item;
     action := action item;
     data := data item;
     collection := collection item;
     timestamp := timestamp item;
     status := default (status item) (u_status u);
     attempts := default (attempts item) (u_attempts u);
     lastError := assignOpt (lastError item) (u_lastError u);
     lastAttempt := assignOpt (lastAttempt item) (u_lastAttempt u);
     syncedAt := assignOpt (syncedAt item) (u_syncedAt u) |}.

(** [item.attempts = n] *)
Definition set_attempts (n : nat) (item : QueueItem) : QueueItem :=
  {| id := id item;
     type := type item;
     action := action item;
     data := data item;
     collection := collection item;
     timestamp := timestamp item;
     status := status item;
     attempts := n;
     lastError := lastError item;
     lastAttempt := lastAttempt item;
     syncedAt := syncedAt item |}.

(** ** Environment and world state *)

Inductive StorageError := ConstraintError | RequestFailed.

(** Settlement of a promise. *)
Inductive Completion (E A : Type) :=
| Resolved (a : A)
| Rejected (e : E).
Arguments Resolved {E A} a.
Arguments Rejected {E A} e.

Record Env := {
  (** [sendToServer]: the n-th call resolves ([None]) or rejects with
      [new Error(msg)] ([Some msg]). *)
  send : nat -> QueueItem -> option string;
  (** the worker's [syncToServer]: the n-th call resolves ([true]) or
      rejects with [new Error('Simulated server error')] *)
  syncToServer : nat -> QueueItem -> bool;
  (** the n-th IndexedDB request fails *)
  fault : nat -> bool;
  (** the n-th reading of [new Date()] *)
  clock : nat -> Time;
  (** [Date.now().toString(36) + Math.random().toString(36).substr(2)]
      computed at the n-th reading of the clock *)
  mkId : nat -> string
}.

Record World := {
  syncQueue : list QueueItem;          (* this.syncQueue *)
  syncInProgress : bool;               (* this.syncInProgress *)
  onLine : bool;                       (* navigator.onLine *)
  db : gmap string QueueItem;          (* object store 'syncQueue' *)
  lastSync : option Time;              (* settings record 'lastSync' *)
  requests : nat;                      (* IndexedDB requests issued so far *)
  dates : nat;                         (* Date readings so far *)
  sent : list QueueItem;               (* arguments of sendToServer so far *)
  timers : list nat;                   (* pending scheduleRetry timeouts, in ms *)
  bgSent : list QueueItem              (* arguments of the worker's syncToServer so far *)
}.

Definition with_syncQueue q (w : World) : World :=
  {| syncQueue := q; syncInProgress := syncInProgress w; onLine := onLine w;
     db := db w; lastSync := lastSync w; requests := requests w;
     dates := dates w; sent := sent w; timers := timers w; bgSent := bgSent w |}.

Definition with_syncInProgress b (w : World) : World :=
  {| syncQueue := syncQueue w; syncInProgress := b; onLine := onLine w;
     db := db w; lastSync := lastSync w; requests := requests w;
     dates := dates w; sent := sent w; timers := timers w; bgSent := bgSent w |}.

Definition with_onLine b (w : World) : World :=
  {| syncQueue := syncQueue w; syncInProgress := syncInProgress w; onLine := b;
     db := db w; lastSync := lastSync w; requests := requests w;
     dates := dates w; sent := sent w; timers := timers w; bgSent := bgSent w |}.

Definition with_db d (w : World) : World :=
  {| syncQueue := syncQueue w; syncInProgress := syncInProgress w; onLine := onLine w;
     db := d; lastSync := lastSync w; requests := requests w;
     dates := dates w; sent := sent w; timers := timers w; bgSent := bgSent w |}.

Definition with_lastSync t (w : World) : World :=
  {| syncQueue := syncQueue w; syncInProgress := syncInProgress w; onLine := onLine w;
     db := db w; lastSync := t; requests := requests w;
     dates := dates w; sent := sent w; timers := timers w; bgSent := bgSent w |}.

Definition with_requests n (w : World) : World :=
  {| syncQueue := syncQueue w; syncInProgress := syncInProgress w; onLine := onLine w;
     db := db w; lastSync := lastSync w; requests := n;
     dates := dates w; sent := sent w; timers := timers w; bgSent := bgSent w |}.

Definition with_dates n (w : World) : World :=
  {| syncQueue := syncQueue w; syncInProgress := syncInProgress w; onLine := onLine w;
     db := db w; lastSync := lastSync w; requests := requests w;
     dates := n; sent := sent w; timers := timers w; bgSent := bgSent w |}.

Definition with_sent l (w : World) : World :=
  {| syncQueue := syncQueue w; syncInProgress := syncInProgress w; onLine := onLine w;
     db := db w; lastSync := lastSync w; requests := requests w;
     dates := dates w; sent := l; timers := timers w; bgSent := bgSent w |}.

Definition with_timers l (w : World) : World :=
  {| syncQueue := syncQueue w; syncInProgress := syncInProgress w; onLine := onLine w;
     db := db w; lastSync := lastSync w; requests := requests w;
     dates := dates w; sent := sent w; timers := l; bgSent := bgSent w |}.

Definition with_bgSent l (w : World) : World :=
  {| syncQueue := syncQueue w; syncInProgress := syncInProgress w; onLine := onLine w;
     db := db w; lastSync := lastSync w; requests := requests w;
     dates := dates w; sent := sent w; timers := timers w; bgSent := l |}.

(** ** The record store ([agriDB], generic methods) *)

Section RecordStore.
Context (env : Env).

(** Every request consults the failure oracle once. *)
Definition request (w : World) : bool * World :=
  (fault env (requests w), with_requests (S (requests w)) w).

(** [agriDB.addItem('syncQueue', item)]: [store.add] rejects on a key
    that is already present. *)
Definition addItem (item : QueueItem) (w : World)
  : Completion StorageError unit * World :=
  let '(broken, w1) := request w in
  if broken then (Rejected RequestFailed, w1)
  else match db w1 !! id item with
       | Some _ => (Rejected ConstraintError, w1)
       | None => (Resolved (), with_db (<[id item := item]> (db w1)) w1)
       end.

(** [agriDB.getItem('syncQueue', key)]: resolves with the record or
    [undefined]. *)
Definition getItem (key : string) (w : World)
  : Completion StorageError (option QueueItem) * World :=
  let '(broken, w1) := request w in
  if broken then (Rejected RequestFailed, w1)
  else (Resolved (db w1 !! key), w1).

(** [agriDB.updateItem('syncQueue', item)]: [store.put] upserts. *)
Definition updateItem (item : QueueItem) (w : World)
  : Completion StorageError unit * World :=
  let '(broken, w1) := request w in
  if broken then (Rejected RequestFailed, w1)
  else (Resolved (), with_db (<[id item := item]> (db w1)) w1).

(** [agriDB.setSetting('lastSync', value)] *)
Definition setSetting_lastSync (t : Time) (w : World)
  : Completion StorageError unit * World :=
  let '(broken, w1) := request w in
  if broken then (Rejected RequestFailed, w1)
  else (Resolved (), with_lastSync (Some t) w1).

(** [new Date().toISOString()] *)
Definition Date_now (w : World) : Time * World :=
  (clock env (dates w), with_dates (S (dates w)) w).

End RecordStore.

(** ** The sync queue and the drain coordinator ([class AgriSync]) *)

Definition maxRetries : nat := 3.
Definition retryDelay : nat := 5000.

(** The test that decides fail-fast in [processQueue]:
    [error.message.includes('Network') || error.message.includes('Failed to fetch')] *)
Definition isNetworkError (msg : string) : bool :=
  JsString.includes "Network" msg || JsString.includes "Failed to fetch" msg.

(** The locals [successItems] and [failedItems] of one [processQueue] call;
    a failed-report entry is [{ ...item, error }]. *)
Record Pass := {
  successItems : list string;
  failedItems : list (QueueItem * string)
}.

Definition emptyPass : Pass := {| successItems := []; failedItems := [] |}.

Definition push_success (i : string) (p : Pass) : Pass :=
  {| successItems := successItems p ++ [i]; failedItems := failedItems p |}.

Definition push_failed (item : QueueItem) (err : string) (p : Pass) : Pass :=
  {| successItems := successItems p; failedItems := failedItems p ++ [(item, err)] |}.

(** What a call of [processQueue] did: returned at its guard, or ran a
    pass, with the pass's locals and whether the loop left through [break]. *)
Inductive Drain :=
| NoOp
| Ran (p : Pass) (brk : bool).

Section AgriSync.
Context (env : Env).

(** [saveQueueItem]: both the [try] and the [catch] branch complete
    normally. *)
Definition saveQueueItem (item : QueueItem) (w : World)
  : Completion StorageError unit * World :=
  match addItem env item w with
  | (Resolved _, w1) => (Resolved (), w1)
  | (Rejected _, w1) => (Resolved (), w1)   (* console.error *)
  end.

(** [updateQueueItem] *)
Definition updateQueueItem (itemId : string) (updates : Updates) (w : World)
  : Completion StorageError unit * World :=
  match getItem env itemId w with
  | (Resolved (Some item), w1) =>
      match updateItem env (Object_assign item updates) w1 with
      | (Resolved _, w2) => (Resolved (), w2)
      | (Rejected _, w2) => (Resolved (), w2)   (* console.error *)
      end
  | (Resolved None, w1) => (Resolved (), w1)    (* if (item) is false *)
  | (Rejected _, w1) => (Resolved (), w1)       (* console.error *)
  end.

(** [sendToServer]: the outcome is the server oracle's; the call is
    recorded in [sent]. *)
Definition sendToServer (item : QueueItem) (w : World) : option string * World :=
  (send env (length (sent w)) item, with_sent (sent w ++ [item]) w).

(** The item after [item.attempts = (item.attempts || 0) + 1]. *)
Definition bumped (item : QueueItem) : QueueItem :=
  set_attempts (attempts item + 1) item.

(** The body of the [for (const item of this.syncQueue)] loop. Returns the
    item after its in-place writes, the locals, the world and whether the
    body executed [break]. An [await] of [updateQueueItem] cannot throw
    (it always resolves), so only [sendToServer] reaches the [catch]. *)
Definition iteration (item : QueueItem) (p : Pass) (w : World)
  : QueueItem * Pass * World * bool :=
  if maxRetries <=? attempts item then
    (item, push_failed item "Max retries exceeded" p, w, false)
  else
    let item1 := bumped item in
    let '(_, w1) := updateQueueItem (id item1)
        {| u_attempts := Some (attempts item1); u_status := None;
           u_syncedAt := None; u_lastError := None; u_lastAttempt := None |} w in
    let '(r, w2) := sendToServer item1 w1 in
    match r with
    | None =>
        let p1 := push_success (id item1) p in
        let '(t, w3) := Date_now env w2 in
        let '(_, w4) := updateQueueItem (id item1)
            {| u_attempts := None; u_status := Some synced;
               u_syncedAt := Some t; u_lastError := None; u_lastAttempt := None |} w3 in
        (item1, p1, w4, false)
    | Some msg =>
        let '(t, w3) := Date_now env w2 in
        let '(_, w4) := updateQueueItem (id item1)
            {| u_attempts := None; u_status := None;
               u_syncedAt := None; u_lastError := Some msg; u_lastAttempt := Some t |} w3 in
        (item1, push_failed item1 msg p, w4, isNetworkError msg)
    end.

(** The loop itself, run without interleaving: the items of the array in
    order, until the array ends or the body breaks. *)
Fixpoint forOf (items : list QueueItem) (p : Pass) (w : World)
  : list QueueItem * Pass * World * bool :=
  match items with
  | [] => ([], p, w, false)
  | item :: rest =>
      let '(item1, p1, w1, brk) := iteration item p w in
      if brk then (item1 :: rest, p1, w1, true)
      else
        let '(rest1, p2, w2, brk2) := forOf rest p1 w1 in
        (item1 :: rest1, p2, w2, brk2)
  end.

(** [scheduleRetry]: one more pending timeout of [retryDelay] ms. *)
Definition scheduleRetry (w : World) : World :=
  with_timers (timers w ++ [retryDelay]) w.

(** The statements of [processQueue] after the loop. The DOM status line
    and the notification are outside the model. A rejection of the final
    [setSetting] rejects the promise of [processQueue], which no caller
    awaits. *)
Definition epilogue (p : Pass) (w : World) : World :=
  let w2 := with_syncQueue
              (filter (λ item, id item ∉ successItems p) (syncQueue w)) w in
  let w3 := with_syncInProgress false w2 in
  let w4 := if 0 <? length (failedItems p) then scheduleRetry w3 else w3 in
  let '(t, w5) := Date_now env w4 in
  let '(_, w6) := setSetting_lastSync env t w5 in
  w6.

(** The guard at the head of [processQueue]. *)
Definition guard (w : World) : bool :=
  syncInProgress w || (length (syncQueue w) =? 0) || negb (onLine w).

(** [processQueue], one whole call run without interleaving. *)
Definition processQueue (w : World) : Drain * World :=
  if guard w then (NoOp, w)
  else
    let w0 := with_syncInProgress true w in
    let '(items, p, w1, brk) := forOf (syncQueue w0) emptyPass w0 in
    (Ran p brk, epilogue p (with_syncQueue items w1)).

(** The callback of the timeout set by [scheduleRetry]. *)
Definition retryCallback (w : World) : World :=
  let w1 := with_timers (tail (timers w)) w in
  if onLine w1 && (0 <? length (syncQueue w1)) then (processQueue w1).2 else w1.

(** The part of [addToQueue] before its call of [processQueue]. *)
Definition enqueue (d : Descriptor) (w : World)
  : Completion StorageError QueueItem * World :=
  let i := mkId env (dates w) in
  let '(t, w1) := Date_now env (with_dates (S (dates w)) w) in
  let queueItem :=
    {| id := i; type := d_type d; action := d_action d; data := d_data d;
       collection := d_collection d; timestamp := t; status := pending;
       attempts := 0; lastError := None; lastAttempt := None; syncedAt := None |} in
  let w2 := with_syncQueue (syncQueue w1 ++ [queueItem]) w1 in
  match saveQueueItem queueItem w2 with
  | (Resolved _, w3) => (Resolved queueItem, w3)
  | (Rejected e, w3) => (Rejected e, w3)     (* the await would rethrow *)
  end.

(** [addToQueue]: resolves with the new id, or rejects with what the
    awaited [saveQueueItem] rejected with. *)
Definition addToQueue (d : Descriptor) (w : World)
  : Completion StorageError string * World :=
  match enqueue d w with
  | (Resolved queueItem, w3) =>
      let w4 := if onLine w3 then (processQueue w3).2 else w3 in
      (Resolved (id queueItem), w4)
  | (Rejected e, w3) => (Rejected e, w3)
  end.

End AgriSync.

(** ** Background sync in the service worker

    The worker opens the same database ([AgriInfoDB_Kenya]) and works on
    the same object store [syncQueue] as the page. *)

(** Records come out of an index in key order. *)
Fixpoint insertByKey (x : QueueItem) (l : list QueueItem) : list QueueItem :=
  match l with
  | [] => [x]
  | y :: l' => if String.leb (id x) (id y) then x :: l else y :: insertByKey x l'
  end.

Definition sortByKey (l : list QueueItem) : list QueueItem :=
  foldr insertByKey [] l.

Section BackgroundSync.
Context (env : Env).

(** [getPendingSyncItems]: [store.index('status').getAll('pending')] *)
Definition getPendingSyncItems (w : World)
  : Completion StorageError (list QueueItem) * World :=
  let '(broken, w1) := request env w in
  if broken then (Rejected RequestFailed, w1)
  else (Resolved (sortByKey
          (filter (λ item, status item = pending) (map_to_list (db w1)).*2)), w1).

(** [markAsSynced(db, itemId)] *)
Definition markAsSynced (itemId : string) (w : World)
  : Completion StorageError unit * World :=
  match getItem env itemId w with
  | (Resolved (Some item), w1) =>
      let '(t, w2) := Date_now env w1 in
      updateItem env
        (Object_assign item
           {| u_attempts := None; u_status := Some synced; u_syncedAt := Some t;
              u_lastError := None; u_lastAttempt := None |}) w2
  | (Resolved None, w1) => (Resolved (), w1)
  | (Rejected e, w1) => (Rejected e, w1)
  end.

(** [updateRetryCount(db, itemId)]: [item.attempts = (item.attempts || 0) + 1]
    with no test against any bound. *)
Definition updateRetryCount (itemId : string) (w : World)
  : Completion StorageError unit * World :=
  match getItem env itemId w with
  | (Resolved (Some item), w1) =>
      let '(t, w2) := Date_now env w1 in
      updateItem env
        (Object_assign item
           {| u_attempts := Some (attempts item + 1); u_status := None;
              u_syncedAt := None; u_lastError := Some "Background sync failed";
              u_lastAttempt := Some t |}) w2
  | (Resolved None, w1) => (Resolved (), w1)
  | (Rejected e, w1) => (Rejected e, w1)
  end.

(** The worker's [syncToServer(item)]. *)
Definition bgSend (item : QueueItem) (w : World) : bool * World :=
  (syncToServer env (length (bgSent w)) item, with_bgSent (bgSent w ++ [item]) w).

(** The [try] block of the loop of [syncPendingData]: whether it ran to
    its end. It does not when [syncToServer] rejects, nor when the
    [markAsSynced] that follows a delivery rejects. *)
Definition bgTry (item : QueueItem) (w : World) : bool * World :=
  let '(ok, w1) := bgSend item w in
  if ok then
    match markAsSynced (id item) w1 with
    | (Resolved _, w2) => (true, w2)
    | (Rejected _, w2) => (false, w2)
    end
  else (false, w1).

(** The loop of [syncPendingData]. The inner [catch] calls
    [updateRetryCount]; a rejection of that call leaves the loop for the
    outer [catch]. *)
Fixpoint bgLoop (items : list QueueItem) (w : World)
  : Completion StorageError unit * World :=
  match items with
  | [] => (Resolved (), w)
  | item :: rest =>
      let '(done, w2) := bgTry item w in
      if done then bgLoop rest w2
      else
        match updateRetryCount (id item) w2 with
        | (Resolved _, w3) => bgLoop rest w3
        | (Rejected e, w3) => (Rejected e, w3)
        end
  end.

(** [syncPendingData]: the outer [catch] absorbs every rejection; the
    messages posted to the clients are outside the model. *)
Definition syncPendingData (w : World) : World :=
  let '(broken, w0) := request env w in          (* openIndexedDB *)
  if broken then w0
  else match getPendingSyncItems w0 with
       | (Resolved pendingItems, w1) => (bgLoop pendingItems w1).2
       | (Rejected _, w1) => w1
       end.

End BackgroundSync.

(** ** Operations of the queue as a whole

    Operations settled one after another: each runs to its end, the pass
    it starts included, before the next begins. Passes that overlap other
    tasks are the subject of [steps] below, store transactions that
    overlap one another that of [transact]. *)

Inductive Op :=
| OpEnqueue (d : Descriptor)       (* addToQueue(d) *)
| OpDrain                          (* processQueue() *)
| OpBackgroundSync                 (* the worker's sync event *)
| OpConnectivity (b : bool)        (* navigator.onLine changes; 'online' calls processQueue *)
| OpRetryTimer.                    (* the scheduleRetry timeout fires *)

Definition apply (env : Env) (w : World) (op : Op) : World :=
  match op with
  | OpEnqueue d => (addToQueue env d w).2
  | OpDrain => (processQueue env w).2
  | OpBackgroundSync => syncPendingData env w
  | OpConnectivity b =>
      let w1 := with_onLine b w in
      if b then (processQueue env w1).2 else w1
  | OpRetryTimer =>
      match timers w with
      | [] => w
      | _ :: _ => retryCallback env w
      end
  end.

Definition run (env : Env) (ops : list Op) (w : World) : World :=
  foldl (apply env) w ops.

(** A freshly constructed [AgriSync] over an empty store. *)
Definition initial (online : bool) : World :=
  {| syncQueue := []; syncInProgress := false; onLine := online; db := ∅;
     lastSync := None; requests := 0; dates := 0; sent := []; timers := [];
     bgSent := [] |}.

(** ** Interleaved execution

    [processQueue] is an async function: between two iterations of its
    loop other tasks of the page run, among them further calls of
    [processQueue]. A call that passed the guard and has not yet reset
    the flag is an [Invocation]; [cursor] is the position of the array
    iterator. A resumed invocation runs one iteration of the loop, or the
    statements after the loop up to the last [await]: it resets the flag
    and then waits for the write of [lastSync]. An invocation in that wait
    is an entry of [settling], the date it handed to [setSetting]; the
    writes land in the order they were issued. While no more than one
    invocation is in its loop the array it iterates is [this.syncQueue]
    itself: once the [loadQueue] of the constructor has settled, the field
    is reassigned only by the statements after the loop. *)

Record Invocation := {
  cursor : nat;
  locals : Pass
}.

Record Sys := {
  world : World;
  running : list Invocation;
  settling : list Time
}.

Inductive Event :=
| EvCall                        (* some trigger calls processQueue() *)
| EvResume (k : nat)            (* the k-th suspended invocation resumes *)
| EvSettle                      (* the oldest awaited setSetting completes *)
| EvEnqueue (d : Descriptor)    (* addToQueue(d) *)
| EvConnectivity (b : bool)     (* 'online' / 'offline' *)
| EvRetryTimer                  (* the scheduleRetry timeout fires *)
| EvBackgroundSync.             (* the worker's sync event *)

Section Interleaving.
Context (env : Env).

(** The statements of [processQueue] after the loop, up to the call of
    [agriDB.setSetting]: all synchronous. The date is the argument of the
    call. *)
Definition leave (p : Pass) (w : World) : Time * World :=
  let w2 := with_syncQueue
              (filter (λ item, id item ∉ successItems p) (syncQueue w)) w in
  let w3 := with_syncInProgress false w2 in
  let w4 := if 0 <? length (failedItems p) then scheduleRetry w3 else w3 in
  Date_now env w4.

(** The awaited [agriDB.setSetting('lastSync', t)] completes; the
    invocation returns, or rejects to no one. *)
Definition settle (t : Time) (w : World) : World :=
  (setSetting_lastSync env t w).2.

(** A call of [processQueue] up to its first [await]. *)
Definition call (s : Sys) : Sys :=
  if guard (world s) then s
  else {| world := with_syncInProgress true (world s);
          running := running s ++ [{| cursor := 0; locals := emptyPass |}];
          settling := settling s |}.

(** The invocation leaves its loop: flag down, the write of [lastSync]
    issued. *)
Definition finish (k : nat) (p : Pass) (w : World) (s : Sys) : Sys :=
  let '(t, w') := leave p w in
  {| world := w'; running := delete k (running s); settling := settling s ++ [t] |}.

Definition resume (k : nat) (s : Sys) : Sys :=
  match running s !! k with
  | None => s
  | Some inv =>
      match syncQueue (world s) !! cursor inv with
      | Some item =>
          let '(item1, p1, w1, brk) := iteration env item (locals inv) (world s) in
          let w2 := with_syncQueue (<[cursor inv := item1]> (syncQueue w1)) w1 in
          if brk then finish k p1 w2 s
          else
            {| world := w2;
               running := <[k := {| cursor := S (cursor inv); locals := p1 |}]> (running s);
               settling := settling s |}
      | None => finish k (locals inv) (world s) s
      end
  end.

Definition with_world (w : World) (s : Sys) : Sys :=
  {| world := w; running := running s; settling := settling s |}.

Definition step (s : Sys) (ev : Event) : Sys :=
  match ev with
  | EvCall => call s
  | EvResume k => resume k s
  | EvSettle =>
      match settling s with
      | [] => s
      | t :: rest =>
          {| world := settle t (world s); running := running s; settling := rest |}
      end
  | EvEnqueue d =>
      match enqueue env d (world s) with
      | (Resolved _, w1) =>
          let s1 := with_world w1 s in
          if onLine w1 then call s1 else s1
      | (Rejected _, w1) => with_world w1 s
      end
  | EvConnectivity b =>
      let s1 := with_world (with_onLine b (world s)) s in
      if b then call s1 else s1
  | EvRetryTimer =>
      match timers (world s) with
      | [] => s
      | _ :: rest =>
          let s1 := with_world (with_timers rest (world s)) s in
          if onLine (world s1) && (0 <? length (syncQueue (world s1))) then call s1 else s1
      end
  | EvBackgroundSync => with_world (syncPendingData env (world s)) s
  end.

Definition steps (evs : list Event) (s : Sys) : Sys := foldl step s evs.

End Interleaving.

(** The page once [new AgriSync()] and its [loadQueue] have settled: no
    invocation of [processQueue] yet. *)
Definition boot (w : World) : Sys := {| world := w; running := []; settling := [] |}.

(** ** Fetch strategies of the service worker *)

Definition API_CACHE : string := "agriinfo-api-v1".
Definition IMAGE_CACHE : string := "agriinfo-images-v1".
Definition CACHE_NAME : string := "agriinfo-kenya-v2.0".

Definition dquote : string := String (Ascii.ascii_of_nat 34) EmptyString.
Definition backslash : string := String (Ascii.ascii_of_nat 92) EmptyString.

Module Json.

(** The escapes [JSON.stringify] applies to the quotation mark and the
    reverse solidus; the strings serialised below hold no control
    characters. *)
Fixpoint escape (s : string) : string :=
  match s with
  | EmptyString => EmptyString
  | String c s' =>
      if Ascii.eqb c (Ascii.ascii_of_nat 34) then backslash +:+ dquote +:+ escape s'
      else if Ascii.eqb c (Ascii.ascii_of_nat 92) then backslash +:+ backslash +:+ escape s'
      else String c (escape s')
  end.

Definition quote (s : string) : string := dquote +:+ escape s +:+ dquote.

Definition member (kv : string * string) : string :=
  quote kv.1 +:+ ":" +:+ quote kv.2.

Fixpoint members (l : list (string * string)) : string :=
  match l with
  | [] => EmptyString
  | [kv] => member kv
  | kv :: l' => member kv +:+ "," +:+ members l'
  end.

(** [JSON.stringify(o)] for an object whose property values are strings. *)
Definition stringify (o : list (string * string)) : string :=
  "{" +:+ members o +:+ "}".

End Json.

(** Header names are kept in lower case by a [Headers] object and looked
    up without regard to case. *)
Definition lowerAscii (c : Ascii.ascii) : Ascii.ascii :=
  let n := Ascii.nat_of_ascii c in
  if (65 <=? n) && (n <=? 90) then Ascii.ascii_of_nat (n + 32) else c.

Fixpoint lower (s : string) : string :=
  match s with
  | EmptyString => EmptyString
  | String c s' => String (lowerAscii c) (lower s')
  end.

Definition Headers := list (string * string).

(** [headers.get(name)] *)
Fixpoint Headers_get (name : string) (h : Headers) : option string :=
  match h with
  | [] => None
  | (k, v) :: h' => if String.eqb k (lower name) then Some v else Headers_get name h'
  end.

(** [headers.set(name, value)] *)
Fixpoint Headers_set (name value : string) (h : Headers) : Headers :=
  match h with
  | [] => [(lower name, value)]
  | (k, v) :: h' =>
      if String.eqb k (lower name) then (k, value) :: h'
      else (k, v) :: Headers_set name value h'
  end.

(** [new Headers(init)] for an object literal or another [Headers]. *)
Definition Headers_new (init : list (string * string)) : Headers :=
  foldl (λ h kv, Headers_set kv.1 kv.2 h) [] init.

Record Request := {
  url : string;
  method : string;
  destination : string
}.

Record Response := {
  r_status : nat;
  r_statusText : string;
  r_headers : Headers;
  r_body : string
}.

Record ResponseInit := {
  i_status : option nat;
  i_statusText : option string;
  i_headers : list (string * string)
}.

(** [new Response(body, init)]: a missing [status] is 200, a missing
    [statusText] is the empty string. *)
Definition Response_new (body : string) (init : ResponseInit) : Response :=
  {| r_status := default 200 (i_status init);
     r_statusText := default EmptyString (i_statusText init);
     r_headers := Headers_new (i_headers init);
     r_body := body |}.

(** The network and the worker's clock. *)
Record Net := {
  (** the n-th [fetch]: a response, or a rejection ([None]) *)
  net : nat -> Request -> option Response;
  (** the n-th [new Date().toISOString()] *)
  isoDate : nat -> string
}.

(** Cache storage (partition name, then request URL), the requests handed
    to [fetch] so far and the number of clock readings. *)
Record Worker := {
  caches : gmap string (gmap string Response);
  fetched : list Request;
  swDates : nat
}.

(** [caches.open(name)] creates the partition when it is missing. *)
Definition caches_open (name : string) (sw : Worker)
  : gmap string Response * Worker :=
  match caches sw !! name with
  | Some c => (c, sw)
  | None => (∅, {| caches := <[name := ∅]> (caches sw);
                   fetched := fetched sw; swDates := swDates sw |})
  end.

(** [cache.match(request)] on the partition as it is now. *)
Definition cache_match (name : string) (req : Request) (sw : Worker)
  : option Response :=
  caches sw !! name ≫= λ c, c !! url req.

(** The members of a comma-separated header value. *)
Fixpoint splitComma (s cur : string) : list string :=
  match s with
  | EmptyString => [cur]
  | String c s' =>
      if Ascii.eqb c (Ascii.ascii_of_nat 44) then cur :: splitComma s' EmptyString
      else splitComma s' (cur +:+ String c EmptyString)
  end.

Definition isBlank (c : Ascii.ascii) : bool :=
  Ascii.eqb c (Ascii.ascii_of_nat 32) || Ascii.eqb c (Ascii.ascii_of_nat 9).

Fixpoint trimStart (s : string) : string :=
  match s with
  | EmptyString => EmptyString
  | String c s' => if isBlank c then trimStart s' else s
  end.

Fixpoint trimEnd (s : string) : string :=
  match s with
  | EmptyString => EmptyString
  | String c s' =>
      match trimEnd s' with
      | EmptyString => if isBlank c then EmptyString else String c EmptyString
      | r => String c r
      end
  end.

(** The response has a [Vary] header one of whose field values is [*]. *)
Definition varyAny (h : Headers) : bool :=
  existsb (λ kv : string * string,
             String.eqb (lower kv.1) "vary" &&
             existsb (λ v, String.eqb (trimEnd (trimStart v)) "*")
                     (splitComma kv.2 EmptyString)) h.

(** What the platform's [Cache.put] accepts: a GET request for an http or
    https URL, and a response whose status is not 206 and which has no
    [Vary: *]. For anything else the promise of [put] rejects with a
    TypeError and nothing is stored. *)
Definition storable (req : Request) (resp : Response) : bool :=
  (JsString.startsWith "http://" (url req) || JsString.startsWith "https://" (url req))
  && String.eqb (method req) "GET"
  && negb (r_status resp =? 206)
  && negb (varyAny (r_headers resp)).

(** [cache.put(request, response)] on the opened partition [name]. No
    strategy awaits the promise or handles its rejection: a refused write
    changes nothing and is seen by no one. The worker returned is the one
    in which an accepted write has landed; storage is taken to have room. *)
Definition cache_put (name : string) (req : Request) (resp : Response)
    (sw : Worker) : Worker :=
  if storable req resp then
    {| caches := <[name := <[url req := resp]> (default ∅ (caches sw !! name))]> (caches sw);
       fetched := fetched sw; swDates := swDates sw |}
  else sw.

(** [url.split('/').pop()] *)
Fixpoint afterLastSlash (s cur : string) : string :=
  match s with
  | EmptyString => cur
  | String c s' =>
      if Ascii.eqb c (Ascii.ascii_of_nat 47) then afterLastSlash s' s'
      else afterLastSlash s' cur
  end.

Definition lastSegment (s : string) : string := afterLastSlash s s.

(** The template literal of the placeholder image. *)
Definition placeholderSvg (name : string) : string :=
  let nl := String (Ascii.ascii_of_nat 10) EmptyString in
  let attr k v := k +:+ "=" +:+ dquote +:+ v +:+ dquote in
  "<svg " +:+ attr "xmlns" "http://www.w3.org/2000/svg" +:+ " "
    +:+ attr "width" "400" +:+ " " +:+ attr "height" "300" +:+ " "
    +:+ attr "viewBox" "0 0 400 300" +:+ ">" +:+ nl
  +:+ "                <rect " +:+ attr "width" "400" +:+ " "
    +:+ attr "height" "300" +:+ " " +:+ attr "fill" "#f0f0f0" +:+ "/>" +:+ nl
  +:+ "                <text " +:+ attr "x" "200" +:+ " " +:+ attr "y" "150" +:+ " "
    +:+ attr "text-anchor" "middle" +:+ " " +:+ attr "font-family" "Arial" +:+ " "
    +:+ attr "font-size" "16" +:+ " " +:+ attr "fill" "#666" +:+ ">" +:+ nl
  +:+ "                    🌱 Image not available offline" +:+ nl
  +:+ "                </text>" +:+ nl
  +:+ "                <text " +:+ attr "x" "200" +:+ " " +:+ attr "y" "170" +:+ " "
    +:+ attr "text-anchor" "middle" +:+ " " +:+ attr "font-family" "Arial" +:+ " "
    +:+ attr "font-size" "12" +:+ " " +:+ attr "fill" "#999" +:+ ">" +:+ nl
  +:+ "                    " +:+ name +:+ nl
  +:+ "                </text>" +:+ nl
  +:+ "            </svg>".

Section Strategies.
Context (io : Net).

(** [fetch(event.request)] *)
Definition fetch (req : Request) (sw : Worker) : option Response * Worker :=
  (net io (length (fetched sw)) req,
   {| caches := caches sw; fetched := fetched sw ++ [req]; swDates := swDates sw |}).

(** [new Date().toISOString()] in the worker *)
Definition toISOString_now (sw : Worker) : string * Worker :=
  (isoDate io (swDates sw),
   {| caches := caches sw; fetched := fetched sw; swDates := S (swDates sw) |}).

(** The synthesized answer of [apiStrategy] when neither the network nor
    the cache has one. *)
Definition offlinePayload (now : string) : Response :=
  Response_new
    (Json.stringify
       [("status", "offline");
        ("message", "You are offline. Data may be outdated.");
        ("timestamp", now)])
    {| i_status := None; i_statusText := None;
       i_headers := [("Content-Type", "application/json"); ("X-Offline", "true")] |}.

(** [apiStrategy(event)]: network first. *)
Definition apiStrategy (req : Request) (sw : Worker)
  : Completion unit Response * Worker :=
  let '(_, sw0) := caches_open API_CACHE sw in
  match fetch req sw0 with
  | (Some networkResponse, sw1) =>
      let sw2 := if r_status networkResponse =? 200
                 then cache_put API_CACHE req networkResponse sw1 else sw1 in
      (Resolved networkResponse, sw2)
  | (None, sw1) =>
      match cache_match API_CACHE req sw1 with
      | Some cachedResponse =>
          let headers := Headers_set "X-Offline" "true"
                           (Headers_set "X-Cache" "HIT"
                              (Headers_new (r_headers cachedResponse))) in
          (Resolved {| r_status := r_status cachedResponse;
                       r_statusText := r_statusText cachedResponse;
                       r_headers := headers;
                       r_body := r_body cachedResponse |}, sw1)
      | None =>
          let '(now, sw2) := toISOString_now sw1 in
          (Resolved (offlinePayload now), sw2)
      end
  end.

(** The fallback answer of the earlier worker's [apiFirstStrategy]. *)
Definition offlineFallback : Response :=
  Response_new
    (Json.stringify
       [("status", "offline");
        ("message", "You are offline. Data may be outdated.")])
    {| i_status := None; i_statusText := None;
       i_headers := [("Content-Type", "application/json"); ("X-Offline", "true")] |}.

(** [apiFirstStrategy(event)] of [service-worker.js]. *)
Definition apiFirstStrategy (req : Request) (sw : Worker)
  : Completion unit Response * Worker :=
  let '(_, sw0) := caches_open API_CACHE sw in
  match fetch req sw0 with
  | (Some response, sw1) =>
      let sw2 := if r_status response =? 200
                 then cache_put API_CACHE req response sw1 else sw1 in
      (Resolved response, sw2)
  | (None, sw1) =>
      match cache_match API_CACHE req sw1 with
      | Some cachedResponse => (Resolved cachedResponse, sw1)
      | None => (Resolved offlineFallback, sw1)
      end
  end.

(** [imageStrategy(event)]: cache first. *)
Definition imageStrategy (req : Request) (sw : Worker)
  : Completion unit Response * Worker :=
  let '(_, sw0) := caches_open IMAGE_CACHE sw in
  match cache_match IMAGE_CACHE req sw0 with
  | Some cachedResponse => (Resolved cachedResponse, sw0)
  | None =>
      match fetch req sw0 with
      | (Some networkResponse, sw1) =>
          let sw2 := if r_status networkResponse =? 200
                     then cache_put IMAGE_CACHE req networkResponse sw1 else sw1 in
          (Resolved networkResponse, sw2)
      | (None, sw1) =>
          (Resolved
             (Response_new (placeholderSvg (lastSegment (url req)))
                {| i_status := None; i_statusText := None;
                   i_headers := [("Content-Type", "image/svg+xml");
                                 ("X-Offline", "true")] |}), sw1)
      end
  end.

(** [staticStrategy(event)]: cache first; the final [fetch] is returned
    as it settles. *)
Definition staticStrategy (req : Request) (sw : Worker)
  : Completion unit Response * Worker :=
  let '(_, sw0) := caches_open CACHE_NAME sw in
  match cache_match CACHE_NAME req sw0 with
  | Some cachedResponse => (Resolved cachedResponse, sw0)
  | None =>
      match fetch req sw0 with
      | (Some networkResponse, sw1) => (Resolved networkResponse, sw1)
      | (None, sw1) => (Rejected (), sw1)
      end
  end.

End Strategies.

(** ** Further operations of [class AgriSync] *)

Section AgriSyncMore.
Context (env : Env).

(** [agriDB.deleteItem('syncQueue', key)]: [store.delete] succeeds on an
    absent key too. *)
Definition deleteItem (key : string) (w : World)
  : Completion StorageError unit * World :=
  let '(broken, w1) := request env w in
  if broken then (Rejected RequestFailed, w1)
  else (Resolved (), with_db (delete key (db w1)) w1).

(** [agriDB.getAllItems('syncQueue', 'status', value)] *)
Definition getAllItems_status (st : Status) (w : World)
  : Completion StorageError (list QueueItem) * World :=
  let '(broken, w1) := request env w in
  if broken then (Rejected RequestFailed, w1)
  else (Resolved (sortByKey
          (filter (λ item, status item = st) (map_to_list (db w1)).*2)), w1).

(** [agriDB.getAllItems('syncQueue')] *)
Definition getAllItems (w : World)
  : Completion StorageError (list QueueItem) * World :=
  let '(broken, w1) := request env w in
  if broken then (Rejected RequestFailed, w1)
  else (Resolved (sortByKey (map_to_list (db w1)).*2), w1).

(** [agriDB.getSetting('lastSync')] *)
Definition getSetting_lastSync (w : World)
  : Completion StorageError (option Time) * World :=
  let '(broken, w1) := request env w in
  if broken then (Rejected RequestFailed, w1)
  else (Resolved (lastSync w1), w1).

(** [loadQueue] *)
Definition loadQueue (w : World) : World :=
  match getAllItems_status pending w with
  | (Resolved queueData, w1) => with_syncQueue queueData w1
  | (Rejected _, w1) => w1                         (* console.error *)
  end.

(** [removeFromQueue]: the filter of the in-memory queue is inside the
    [try], after the awaited delete. *)
Definition removeFromQueue (itemId : string) (w : World)
  : Completion StorageError unit * World :=
  match deleteItem itemId w with
  | (Resolved _, w1) =>
      (Resolved (),
       with_syncQueue (filter (λ item, id item ≠ itemId) (syncQueue w1)) w1)
  | (Rejected _, w1) => (Resolved (), w1)          (* console.error *)
  end.

(** One hour in milliseconds, the staleness bound of [checkSyncNeeded]. *)
Definition staleAfter : nat := 3600 * 1000.

(** [checkSyncNeeded]; [lastSync] is what
    [localStorage.getItem('lastSyncAttempt')] returns. The clock is read
    only when the disjunction gets that far. *)
Definition checkSyncNeeded (lastSync : option Time) (w : World) : Drain * World :=
  let hasPendingItems := 0 <? length (syncQueue w) in
  if onLine w then
    if hasPendingItems then processQueue env w
    else
      match lastSync with
      | None => processQueue env w
      | Some t =>
          let '(now, w1) := Date_now env w in
          if staleAfter <? now - t then processQueue env w1 else (NoOp, w1)
      end
  else (NoOp, w).

(** The [results] object of [batchSync]. *)
Record BatchResults := {
  b_batchId : Time;
  b_total : nat;
  b_successful : nat;
  b_failed : nat;
  b_errors : list (Descriptor * StorageError)
}.

Inductive BatchOutcome :=
| NoItems                          (* { success: false, error: 'No items to sync' } *)
| Batch (r : BatchResults).

(** The loop of [batchSync]. *)
Fixpoint batchLoop (items : list Descriptor) (r : BatchResults) (w : World)
  : BatchResults * World :=
  match items with
  | [] => (r, w)
  | item :: rest =>
      match addToQueue env item w with
      | (Resolved _, w1) =>
          batchLoop rest
            {| b_batchId := b_batchId r; b_total := b_total r;
               b_successful := S (b_successful r); b_failed := b_failed r;
               b_errors := b_errors r |} w1
      | (Rejected e, w1) =>
          batchLoop rest
            {| b_batchId := b_batchId r; b_total := b_total r;
               b_successful := b_successful r; b_failed := S (b_failed r);
               b_errors := b_errors r ++ [(item, e)] |} w1
      end
  end.

(** [batchSync(items)] for an array [items]. The world returned is the
    one reached when every pass that a call of [processQueue] starts is
    left to settle before the next statement runs. The code awaits none
    of these passes: on the page the pass started by the first
    [addToQueue] is still under way when [batchSync] returns, and the
    later calls return at the guard (see [steps]). The [results] object
    does not depend on this. *)
Definition batchSync (items : list Descriptor) (w : World) : BatchOutcome * World :=
  match items with
  | [] => (NoItems, w)
  | _ :: _ =>
      let '(t, w1) := Date_now env w in
      let '(r, w2) := batchLoop items
          {| b_batchId := t; b_total := length items; b_successful := 0;
             b_failed := 0; b_errors := [] |} w1 in
      let w3 := if onLine w2 then (processQueue env w2).2 else w2 in
      (Batch r, w3)
  end.

(** The object [getSyncStats] resolves with. *)
Record SyncStats := {
  st_pending : nat;
  st_synced : nat;
  st_failed : nat;
  st_total : nat;
  st_lastSync : option Time
}.

(** [getSyncStats]: any rejection is caught and [null] returned. *)
Definition getSyncStats (w : World) : option SyncStats * World :=
  match getAllItems_status pending w with
  | (Rejected _, w1) => (None, w1)
  | (Resolved lp, w1) =>
      match getAllItems_status synced w1 with
      | (Rejected _, w2) => (None, w2)
      | (Resolved ls, w2) =>
          match getAllItems_status failed w2 with
          | (Rejected _, w3) => (None, w3)
          | (Resolved lf, w3) =>
              match getSetting_lastSync w3 with
              | (Rejected _, w4) => (None, w4)
              | (Resolved t, w4) =>
                  (Some {| st_pending := length lp; st_synced := length ls;
                           st_failed := length lf;
                           st_total := length lp + length ls + length lf;
                           st_lastSync := t |}, w4)
              end
          end
      end
  end.

(** The [for] loop of [cleanupOldRecords]: the first rejected delete ends
    it. *)
Fixpoint deleteAll (records : list QueueItem) (w : World)
  : Completion StorageError unit * World :=
  match records with
  | [] => (Resolved (), w)
  | record :: rest =>
      match deleteItem (id record) w with
      | (Resolved _, w1) => deleteAll rest w1
      | (Rejected e, w1) => (Rejected e, w1)
      end
  end.

(** The test of the filter in [cleanupOldRecords]. *)
Definition isOld (cutoff : Time) (record : QueueItem) : bool :=
  (timestamp record <? cutoff) && bool_decide (status record = synced).

(** [cleanupOldRecords(daysToKeep)]. [daysBefore now n] is the date that
    [cutoffDate.setDate(cutoffDate.getDate() - n)] leaves in a [Date]
    holding [now]; the calendar is the platform's. The result is the
    [cleaned] count and the caught error, if any. *)
Definition cleanupOldRecords (daysBefore : Time → nat → Time)
    (daysToKeep : nat) (w : World) : (nat * option StorageError) * World :=
  let '(now, w0) := Date_now env w in
  let cutoff := daysBefore now daysToKeep in
  match getAllItems w0 with
  | (Rejected e, w1) => ((0, Some e), w1)
  | (Resolved allRecords, w1) =>
      let oldRecords := filter (λ record, isOld cutoff record = true) allRecords in
      match deleteAll oldRecords w1 with
      | (Resolved _, w2) => ((length oldRecords, None), w2)
      | (Rejected e, w2) => ((0, Some e), w2)
      end
  end.

End AgriSyncMore.

(** ** Store transactions under interleaving

    The page and the service worker share the object store. One
    IndexedDB transaction is atomic; [updateQueueItem] is not: its read
    ([getItem]) and its write ([updateItem]) are two transactions with an
    [await] between them, so that transactions of other tasks of the page
    and of the worker land in between. The worker's [markAsSynced] and
    [updateRetryCount] read and write inside one transaction. [held] are
    the records read by calls of [updateQueueItem] that have not written
    yet. *)

Inductive Tx :=
| TxSave (item : QueueItem)             (* saveQueueItem: the add *)
| TxRead (itemId : string)              (* updateQueueItem: the getItem *)
| TxWrite (n : nat) (u : Updates)       (* updateQueueItem: Object.assign on the
                                           n-th record held, and the updateItem *)
| TxMarkAsSynced (itemId : string)      (* the worker's markAsSynced *)
| TxUpdateRetryCount (itemId : string)  (* the worker's updateRetryCount *)
| TxDelete (itemId : string).           (* deleteItem, of cleanupOldRecords and
                                           removeFromQueue *)

Record Shared := {
  page : World;
  held : list QueueItem
}.

Section Transactions.
Context (env : Env).

(** [const item = await agriDB.getItem('syncQueue', itemId)] with what
    follows when there is no record or the request fails: nothing. *)
Definition updateQueueItem_read (itemId : string) (s : Shared) : Shared :=
  match getItem env itemId (page s) with
  | (Resolved (Some item), w1) => {| page := w1; held := held s ++ [item] |}
  | (_, w1) => {| page := w1; held := held s |}
  end.

(** [Object.assign(item, updates); await agriDB.updateItem('syncQueue', item)]
    for a record read earlier. *)
Definition updateQueueItem_write (n : nat) (u : Updates) (s : Shared) : Shared :=
  match held s !! n with
  | Some item =>
      {| page := (updateItem env (Object_assign item u) (page s)).2; held := held s |}
  | None => s
  end.

Definition transaction (s : Shared) (t : Tx) : Shared :=
  match t with
  | TxSave item => {| page := (saveQueueItem env item (page s)).2; held := held s |}
  | TxRead itemId => updateQueueItem_read itemId s
  | TxWrite n u => updateQueueItem_write n u s
  | TxMarkAsSynced itemId =>
      {| page := (markAsSynced env itemId (page s)).2; held := held s |}
  | TxUpdateRetryCount itemId =>
      {| page := (updateRetryCount env itemId (page s)).2; held := held s |}
  | TxDelete itemId =>
      {| page := (deleteItem env itemId (page s)).2; held := held s |}
  end.

Definition transact (txs : list Tx) (s : Shared) : Shared :=
  foldl transaction s txs.

End Transactions.

(** ** Further strategies of the service worker *)

Definition DYNAMIC_CACHE : string := "agriinfo-dynamic-v1".
Definition OFFLINE_URL : string := "/offline.html".

(** The answer of [networkFirstStrategy] when neither the network nor
    the cache has one. *)
Definition unavailable : Response :=
  Response_new "Offline content not available"
    {| i_status := Some 503; i_statusText := Some "Service Unavailable";
       i_headers := [("Content-Type", "text/plain")] |}.

Section StrategiesMore.
Context (io : Net).
(** [caches.match(url)], the platform's search through all partitions. *)
Context (storageMatch : gmap string (gmap string Response) → string → option Response).

(** [htmlStrategy(event)]: network first; every network response is
    handed to [cache.put], whatever its status. A strategy may resolve with [undefined]
    ([None]) when the offline document is in no partition. *)
Definition htmlStrategy (req : Request) (sw : Worker)
  : Completion unit (option Response) * Worker :=
  match fetch io req sw with
  | (Some networkResponse, sw1) =>
      let '(_, sw2) := caches_open DYNAMIC_CACHE sw1 in
      (Resolved (Some networkResponse), cache_put DYNAMIC_CACHE req networkResponse sw2)
  | (None, sw1) =>
      let '(_, sw2) := caches_open DYNAMIC_CACHE sw1 in
      match cache_match DYNAMIC_CACHE req sw2 with
      | Some cachedResponse => (Resolved (Some cachedResponse), sw2)
      | None => (Resolved (storageMatch (caches sw2) OFFLINE_URL), sw2)
      end
  end.

(** [networkFirstStrategy(event)] *)
Definition networkFirstStrategy (req : Request) (sw : Worker)
  : Completion unit Response * Worker :=
  match fetch io req sw with
  | (Some networkResponse, sw1) =>
      let sw3 :=
        if r_status networkResponse =? 200 then
          let '(_, sw2) := caches_open DYNAMIC_CACHE sw1 in
          cache_put DYNAMIC_CACHE req networkResponse sw2
        else sw1 in
      (Resolved networkResponse, sw3)
  | (None, sw1) =>
      let '(_, sw2) := caches_open DYNAMIC_CACHE sw1 in
      match cache_match DYNAMIC_CACHE req sw2 with
      | Some cachedResponse => (Resolved cachedResponse, sw2)
      | None => (Resolved unavailable, sw2)
      end
  end.

End StrategiesMore.

(** ** Invariants *)

(** Records of an object store with key path [id] sit under their own id. *)
Definition keyed (d : gmap string QueueItem) : Prop :=
  ∀ k v, d !! k = Some v → id v = k.

(** The single-flight invariant: no invocation of [processQueue] is
    between the guard and the reset of the flag and the flag is down, or
    exactly one is and the flag is up. *)
Definition single_flight (s : Sys) : Prop :=
  match running s with
  | [] => syncInProgress (world s) = false
  | [_] => syncInProgress (world s) = true
  | _ :: _ :: _ => False
  end.

(** What every operation keeps of the items of [this.syncQueue]. *)
Definition wellQueued (item : QueueItem) : Prop :=
  status item = pending ∧ attempts item ≤ maxRetries.

(** How a stored record changes under operations that settle one after
    another: its identity and payload stay, a synced record stays synced,
    and [failed] is never set. *)
Definition advances (v v' : QueueItem) : Prop :=
  id v' = id v ∧ type v' = type v ∧ action v' = action v ∧ data v' = data v ∧
  collection v' = collection v ∧ timestamp v' = timestamp v ∧
  (status v = synced → status v' = synced) ∧
  (status v' = failed → status v = failed).

(** What every write keeps of a record: its identity and payload; and
    [failed] is never set. *)
Definition keepsIdentity (v v' : QueueItem) : Prop :=
  id v' = id v ∧ type v' = type v ∧ action v' = action v ∧ data v' = data v ∧
  collection v' = collection v ∧ timestamp v' = timestamp v ∧
  (status v' = failed → status v = failed).

(** The transactions the code issues against a store [d]: an item is
    added under an id that [d] does not hold ([addToQueue] draws it from
    the clock and [Math.random]), and no caller of [updateQueueItem]
    passes the status [failed]. *)
Definition issued (d : gmap string QueueItem) (t : Tx) : Prop :=
  match t with
  | TxSave item => d !! id item = None
  | TxWrite _ u => u_status u ≠ Some failed
  | _ => True
  end.

(** No record is deleted, and each one only advances. *)
Definition store_advances (d d' : gmap string QueueItem) : Prop :=
  ∀ k v, d !! k = Some v → ∃ v', d' !! k = Some v' ∧ advances v v'.

(** ** Concrete inputs *)

(** The errors [sendToServer] rejects with, in the order of its [errors]
    array. *)
Inductive ServerError := NetworkErr | TimeoutErr | ValidationErr | AuthErr.

Definition message (e : ServerError) : string :=
  match e with
  | NetworkErr => "Network request failed"
  | TimeoutErr => "Server timeout"
  | ValidationErr => "Invalid data format"
  | AuthErr => "Authentication required"
  end.

(** The classification the specification gives for these errors:
    network-error and timeout are transport-class, the others data-class. *)
Definition transportClass (e : ServerError) : bool :=
  match e with
  | NetworkErr | TimeoutErr => true
  | ValidationErr | AuthErr => false
  end.

Definition demoItem (i : string) (n : nat) : QueueItem :=
  {| id := i; type := "listing_create"; action := "create"; data := "{}";
     collection := "marketListings"; timestamp := 0; status := pending;
     attempts := n; lastError := None; lastAttempt := None; syncedAt := None |}.

(** A page that is online, idle, and whose queue mirrors the store. *)
Definition demoWorld (q : list QueueItem) : World :=
  {| syncQueue := q; syncInProgress := false; onLine := true;
     db := list_to_map ((λ it, (id it, it)) <$> q);
     lastSync := None; requests := 0; dates := 0; sent := []; timers := [];
     bgSent := [] |}.

(** An environment whose server always answers [r], whose storage never
    fails, and whose worker-side server always fails. *)
Definition serverSays (r : option string) : Env :=
  {| send := λ _ _, r; syncToServer := λ _ _, false; fault := λ _, false;
     clock := λ n, n; mkId := λ _, "k1" |}.

(** The same with every storage request failing. *)
Definition storageDown : Env :=
  {| send := λ _ _, None; syncToServer := λ _ _, false; fault := λ _, true;
     clock := λ n, n; mkId := λ _, "k1" |}.

Definition demoDescriptor : Descriptor :=
  {| d_type := "listing_create"; d_action := "create"; d_data := "{}";
     d_collection := "marketListings" |}.

(** A network that is down, a request, a response and two workers: one
    with empty cache storage, one whose image and static partitions hold
    an entry for the style sheet. *)
Definition offlineNet : Net :=
  {| net := λ _ _, None; isoDate := λ _, "2026-01-01T00:00:00.000Z" |}.

Definition demoRequest (u : string) : Request :=
  {| url := u; method := "GET"; destination := EmptyString |}.

Definition demoResponse (b : string) : Response :=
  {| r_status := 200; r_statusText := "OK";
     r_headers := [("content-type", "text/css")]; r_body := b |}.

Definition emptyWorker : Worker :=
  {| caches := ∅; fetched := []; swDates := 0 |}.

Definition warmWorker : Worker :=
  {| caches :=
       <[IMAGE_CACHE := {[ "/css/style.css" := demoResponse "body{}" ]}]>
         (<[CACHE_NAME := {[ "/css/style.css" := demoResponse "body{}" ]}]> ∅);
     fetched := []; swDates := 0 |}.

(** * Properties *)

(** ** Frame and totality lemmas for the queue operations *)

Ltac unfold_store :=
  unfold updateQueueItem, saveQueueItem, markAsSynced, updateRetryCount,
    getPendingSyncItems, setSetting_lastSync, getItem, updateItem, addItem,
    request, Date_now, sendToServer, bgSend in *.

Ltac crush_store :=
  unfold_store; cbn in *;
  repeat (case_match; cbn in *; simplify_eq); cbn in *; auto.

Section QueueFacts.
Context (env : Env).

Lemma updateQueueItem_resolves i u w :
  (updateQueueItem env i u w).1 = Resolved ().
Proof. crush_store. Qed.

Lemma updateQueueItem_frame i u w :
  let w' := (updateQueueItem env i u w).2 in
  syncQueue w' = syncQueue w ∧ syncInProgress w' = syncInProgress w ∧
  onLine w' = onLine w ∧ sent w' = sent w ∧ timers w' = timers w ∧
  bgSent w' = bgSent w ∧ dates w' = dates w ∧ lastSync w' = lastSync w.
Proof. crush_store; repeat split; reflexivity. Qed.

Lemma Object_assign_id item u : id (Object_assign item u) = id item.
Proof. reflexivity. Qed.

Lemma keyed_insert d item :
  keyed d → keyed (<[id item := item]> d).
Proof.
  intros Hk k v. rewrite lookup_insert.
  case_decide; [intros; simplify_eq; done | apply Hk].
Qed.

Lemma updateQueueItem_keyed i u w :
  keyed (db w) → keyed (db (updateQueueItem env i u w).2).
Proof.
  intros Hk. crush_store.
  rewrite <- (Object_assign_id _ u). by apply keyed_insert.
Qed.

(** An update touches no record but the one named. *)
Lemma updateQueueItem_other i u w k :
  keyed (db w) → k ≠ i → db (updateQueueItem env i u w).2 !! k = db w !! k.
Proof.
  intros Hk Hne. crush_store.
  rewrite lookup_insert_ne; [done|].
  match goal with H : db w !! i = Some ?q |- _ => rewrite (Hk _ _ H) end.
  congruence.
Qed.

(** An update never removes a record. *)
Lemma updateQueueItem_keeps i u w k :
  is_Some (db w !! k) → is_Some (db (updateQueueItem env i u w).2 !! k).
Proof.
  intros Hs. crush_store.
  rewrite lookup_insert. case_decide; [eauto | done].
Qed.

End QueueFacts.

(** ** The loop body *)

Section IterationFacts.
Context (env : Env).

Lemma iteration_skip item p w :
  maxRetries ≤ attempts item →
  iteration env item p w = (item, push_failed item "Max retries exceeded" p, w, false).
Proof.
  intros H. unfold iteration.
  destruct (maxRetries <=? attempts item) eqn:E; [done|].
  apply Nat.leb_gt in E. lia.
Qed.

Lemma iteration_attempt item p w :
  attempts item < maxRetries →
  ∃ w',
    iteration env item p w =
      (bumped item,
       match send env (length (sent w)) (bumped item) with
       | None => push_success (id item) p
       | Some msg => push_failed (bumped item) msg p
       end,
       w',
       match send env (length (sent w)) (bumped item) with
       | None => false
       | Some msg => isNetworkError msg
       end)
    ∧ sent w' = sent w ++ [bumped item].
Proof.
  intros H. unfold iteration.
  destruct (maxRetries <=? attempts item) eqn:E.
  { apply Nat.leb_le in E. lia. }
  destruct (updateQueueItem env (id (bumped item)) _ w) as [c1 w1] eqn:E1.
  pose proof (updateQueueItem_frame env (id (bumped item))
    {| u_attempts := Some (attempts (bumped item)); u_status := None;
       u_syncedAt := None; u_lastError := None; u_lastAttempt := None |} w) as F1.
  rewrite E1 in F1. cbn in F1. destruct F1 as (_ & _ & _ & Hs1 & _).
  unfold sendToServer. rewrite Hs1.
  destruct (send env (length (sent w)) (bumped item)) as [msg|] eqn:Es; cbn.
  - match goal with |- context [updateQueueItem env ?i ?u ?x] =>
      pose proof (updateQueueItem_frame env i u x) as F2;
      destruct (updateQueueItem env i u x) as [c2 w2] eqn:E2 end.
    cbn in F2. destruct F2 as (_ & _ & _ & Hs2 & _).
    eexists. split; [reflexivity|]. by rewrite Hs2.
  - match goal with |- context [updateQueueItem env ?i ?u ?x] =>
      pose proof (updateQueueItem_frame env i u x) as F2;
      destruct (updateQueueItem env i u x) as [c2 w2] eqn:E2 end.
    cbn in F2. destruct F2 as (_ & _ & _ & Hs2 & _).
    eexists. split; [reflexivity|]. by rewrite Hs2.
Qed.

(** An iteration leaves the page's own fields alone. *)
Lemma iteration_frame item p w :
  let w' := (iteration env item p w).1.2 in
  syncQueue w' = syncQueue w ∧ syncInProgress w' = syncInProgress w ∧
  onLine w' = onLine w ∧ timers w' = timers w ∧ bgSent w' = bgSent w ∧
  lastSync w' = lastSync w.
Proof.
  unfold iteration. crush_store; repeat split; reflexivity.
Qed.

(** The world after an attempt: two updates of the item's own record
    around the call of the server. *)
Lemma iteration_world item p w :
  attempts item < maxRetries →
  ∃ u1 u2 n l,
    (iteration env item p w).1.2 =
      (updateQueueItem env (id item) u2
         (with_dates n (with_sent l (updateQueueItem env (id item) u1 w).2))).2.
Proof.
  intros H. unfold iteration.
  destruct (maxRetries <=? attempts item) eqn:E.
  { apply Nat.leb_le in E. lia. }
  change (id (bumped item)) with (id item).
  destruct (updateQueueItem env (id item) _ w) as [c1 w1] eqn:E1.
  unfold sendToServer, Date_now.
  destruct (send env (length (sent w1)) (bumped item)) as [msg|]; cbn;
    match goal with |- context [updateQueueItem env ?i ?u ?x] =>
      destruct (updateQueueItem env i u x) as [c2 w2] eqn:E2 end; cbn;
    do 4 eexists; rewrite E1; cbn; rewrite E2; reflexivity.
Qed.

Lemma iteration_keyed item p w :
  keyed (db w) → keyed (db (iteration env item p w).1.2).
Proof.
  intros Hk. destruct (decide (attempts item < maxRetries)) as [H|H].
  - destruct (iteration_world item p w H) as (u1 & u2 & n & l & ->).
    apply updateQueueItem_keyed. cbn. by apply updateQueueItem_keyed.
  - rewrite iteration_skip; [done | lia].
Qed.

(** An iteration touches no record but the item's own. *)
Lemma iteration_db_other item p w k :
  keyed (db w) → k ≠ id item →
  db (iteration env item p w).1.2 !! k = db w !! k.
Proof.
  intros Hk Hne. destruct (decide (attempts item < maxRetries)) as [H|H].
  - destruct (iteration_world item p w H) as (u1 & u2 & n & l & ->).
    rewrite updateQueueItem_other; [| cbn; by apply updateQueueItem_keyed | done].
    cbn. by apply updateQueueItem_other.
  - rewrite iteration_skip; [done | lia].
Qed.

(** An iteration deletes no record. *)
Lemma iteration_db_keeps item p w k :
  is_Some (db w !! k) → is_Some (db (iteration env item p w).1.2 !! k).
Proof.
  intros Hs. destruct (decide (attempts item < maxRetries)) as [H|H].
  - destruct (iteration_world item p w H) as (u1 & u2 & n & l & ->).
    apply updateQueueItem_keeps. cbn. by apply updateQueueItem_keeps.
  - rewrite iteration_skip; [done | lia].
Qed.

(** The item an iteration leaves in the array. *)
Lemma iteration_item item p w :
  (iteration env item p w).1.1.1 =
    if decide (attempts item < maxRetries) then bumped item else item.
Proof.
  case_decide as H.
  - destruct (iteration_attempt item p w H) as (w' & -> & _). done.
  - rewrite iteration_skip; [done | lia].
Qed.

End IterationFacts.

(** ** The loop *)

Section LoopFacts.
Context (env : Env).

Lemma forOf_cons item rest p w :
  forOf env (item :: rest) p w =
    let '(item1, p1, w1, brk) := iteration env item p w in
    if brk then (item1 :: rest, p1, w1, true)
    else let '(rest1, p2, w2, brk2) := forOf env rest p1 w1 in
         (item1 :: rest1, p2, w2, brk2).
Proof. reflexivity. Qed.

(** The loop over a concatenation: the second part runs from where the
    first part stopped, unless the first part broke. *)
Lemma forOf_app pre rest p w :
  forOf env (pre ++ rest) p w =
    let '(pre1, p1, w1, brk) := forOf env pre p w in
    if brk then (pre1 ++ rest, p1, w1, true)
    else let '(rest1, p2, w2, brk2) := forOf env rest p1 w1 in
         (pre1 ++ rest1, p2, w2, brk2).
Proof.
  revert p w. induction pre as [|item pre IH]; intros p w.
  - cbn [app forOf]. by destruct (forOf env rest p w) as [[[??]?]?].
  - rewrite <- app_comm_cons, !forOf_cons.
    destruct (iteration env item p w) as [[[item1 p1] w1] brk].
    destruct brk; [done|].
    rewrite IH. destruct (forOf env pre p1 w1) as [[[pre1 p2] w2] brk2].
    destruct brk2; [done|].
    by destruct (forOf env rest p2 w2) as [[[??]?]?].
Qed.

Lemma forOf_frame items p w :
  let w' := (forOf env items p w).1.2 in
  syncQueue w' = syncQueue w ∧ syncInProgress w' = syncInProgress w ∧
  onLine w' = onLine w ∧ timers w' = timers w ∧ bgSent w' = bgSent w ∧
  lastSync w' = lastSync w.
Proof.
  revert p w. induction items as [|item rest IH]; intros p w; [done|].
  rewrite forOf_cons. pose proof (iteration_frame env item p w) as F.
  destruct (iteration env item p w) as [[[item1 p1] w1] brk]. cbn in F.
  destruct brk; [exact F|].
  specialize (IH p1 w1).
  destruct (forOf env rest p1 w1) as [[[rest1 p2] w2] brk2]. cbn in *.
  destruct F as (?&?&?&?&?&?), IH as (?&?&?&?&?&?).
  repeat split; congruence.
Qed.

Lemma forOf_keyed items p w :
  keyed (db w) → keyed (db (forOf env items p w).1.2).
Proof.
  revert p w. induction items as [|item rest IH]; intros p w Hk; [done|].
  rewrite forOf_cons. pose proof (iteration_keyed env item p w Hk) as K.
  destruct (iteration env item p w) as [[[item1 p1] w1] brk]. cbn in K.
  destruct brk; [exact K|].
  specialize (IH p1 w1 K).
  by destruct (forOf env rest p1 w1) as [[[rest1 p2] w2] brk2].
Qed.

(** The loop touches only the records of the items it attempts. *)
Lemma forOf_db_other items p w k :
  keyed (db w) →
  (∀ z, z ∈ items → attempts z < maxRetries → id z ≠ k) →
  db (forOf env items p w).1.2 !! k = db w !! k.
Proof.
  revert p w. induction items as [|item rest IH]; intros p w Hk Hz; [done|].
  rewrite forOf_cons.
  assert (db (iteration env item p w).1.2 !! k = db w !! k) as D.
  { destruct (decide (attempts item < maxRetries)) as [H|H].
    - apply iteration_db_other; [done|]. intros ->. eapply Hz; [left|done..].
    - rewrite iteration_skip; [done | lia]. }
  pose proof (iteration_keyed env item p w Hk) as K.
  destruct (iteration env item p w) as [[[item1 p1] w1] brk]. cbn in K, D.
  destruct brk; [exact D|].
  assert (db (forOf env rest p1 w1).1.2 !! k = db w1 !! k) as D2.
  { apply IH; [done|]. intros z Hin. apply Hz. by right. }
  destruct (forOf env rest p1 w1) as [[[rest1 p2] w2] brk2]. cbn in *.
  by rewrite D2.
Qed.

Lemma forOf_db_keeps items p w k :
  is_Some (db w !! k) → is_Some (db (forOf env items p w).1.2 !! k).
Proof.
  revert p w. induction items as [|item rest IH]; intros p w Hs; [done|].
  rewrite forOf_cons. pose proof (iteration_db_keeps env item p w k Hs) as K.
  destruct (iteration env item p w) as [[[item1 p1] w1] brk]. cbn in K.
  destruct brk; [exact K|].
  specialize (IH p1 w1 K).
  by destruct (forOf env rest p1 w1) as [[[rest1 p2] w2] brk2].
Qed.

(** The three ways an iteration can go. *)
Lemma iteration_cases item p w :
  (maxRetries ≤ attempts item ∧
   iteration env item p w = (item, push_failed item "Max retries exceeded" p, w, false))
  ∨ (attempts item < maxRetries ∧ ∃ w', sent w' = sent w ++ [bumped item] ∧
     ((send env (length (sent w)) (bumped item) = None ∧
       iteration env item p w = (bumped item, push_success (id item) p, w', false))
      ∨ (∃ msg, send env (length (sent w)) (bumped item) = Some msg ∧
           iteration env item p w =
             (bumped item, push_failed (bumped item) msg p, w', isNetworkError msg)))).
Proof.
  destruct (decide (attempts item < maxRetries)) as [H|H].
  - right. split; [done|].
    destruct (iteration_attempt env item p w H) as (w' & E & Hs).
    exists w'. split; [done|].
    destruct (send env (length (sent w)) (bumped item)) as [msg|]; eauto.
  - left. split; [lia|]. apply iteration_skip. lia.
Qed.

(** Deliveries of a loop: one per attempted item, each an item of the
    array that was below the retry bound, after its increment. *)
Lemma forOf_sent items p w :
  ∃ l, sent (forOf env items p w).1.2 = sent w ++ l ∧
       ∀ y, y ∈ l → ∃ z, z ∈ items ∧ attempts z < maxRetries ∧ y = bumped z.
Proof.
  revert p w. induction items as [|item rest IH]; intros p w.
  { exists []. split; [by rewrite app_nil_r | intros y Hy; by apply elem_of_nil in Hy]. }
  rewrite forOf_cons.
  destruct (iteration_cases item p w) as [[Hge E] | (Hlt & w' & Hs & E)].
  - rewrite E. destruct (IH (push_failed item "Max retries exceeded" p) w) as (l & Hl & Hin).
    destruct (forOf env rest _ w) as [[[rest1 p2] w2] brk2]. cbn in *.
    exists l. split; [done|]. intros y Hy. destruct (Hin y Hy) as (z & ? & ? & ?).
    exists z. split; [by right | done].
  - assert (∀ (p1 : Pass) (b : bool), ∃ l,
        sent (if b then (bumped item :: rest, p1, w', true)
              else let '(rest1, p2, w2, brk2) := forOf env rest p1 w' in
                   (bumped item :: rest1, p2, w2, brk2)).1.2 = sent w ++ l ∧
        ∀ y, y ∈ l → ∃ z, z ∈ item :: rest ∧ attempts z < maxRetries ∧ y = bumped z) as G.
    { intros p1 b. destruct b.
      - exists [bumped item]. split; [done|]. intros y Hy.
        apply list_elem_of_singleton in Hy as ->. exists item. split; [left | done].
      - destruct (IH p1 w') as (l & Hl & Hin).
        destruct (forOf env rest p1 w') as [[[rest1 p2] w2] brk2]. cbn in *.
        exists (bumped item :: l). split.
        + rewrite Hl, Hs, <- app_assoc. done.
        + intros y Hy. apply elem_of_cons in Hy as [-> | Hy].
          * exists item. split; [left | done].
          * destruct (Hin y Hy) as (z & ? & ? & ?). exists z. split; [by right | done]. }
    destruct E as [[_ E] | (msg & _ & E)]; rewrite E;
      [exact (G (push_success (id item) p) false)
      | exact (G (push_failed (bumped item) msg p) (isNetworkError msg))].
Qed.

(** What a loop adds to the two local lists. *)
Lemma forOf_pass items p w :
  ∃ ls lf,
    successItems (forOf env items p w).1.1.2 = successItems p ++ ls ∧
    failedItems (forOf env items p w).1.1.2 = failedItems p ++ lf ∧
    (∀ i, i ∈ ls → ∃ z, z ∈ items ∧ attempts z < maxRetries ∧ i = id z) ∧
    ((forOf env items p w).2 = true → lf ≠ []).
Proof.
  revert p w. induction items as [|item rest IH]; intros p w.
  { exists [], []. rewrite !app_nil_r. repeat split; try done.
    intros i Hi. by apply elem_of_nil in Hi. }
  rewrite forOf_cons.
  destruct (iteration_cases item p w)
    as [[Hge ->] | (Hlt & w' & Hs & [[_ ->] | (msg & _ & ->)])].
  - destruct (IH (push_failed item "Max retries exceeded" p) w) as (ls & lf & H1 & H2 & H3 & H4).
    destruct (forOf env rest _ w) as [[[rest1 p2] w2] brk2]. cbn in *.
    exists ls, ((item, "Max retries exceeded") :: lf).
    rewrite H1, H2, <- app_assoc. repeat split; try done.
    intros i Hi. destruct (H3 i Hi) as (z & ? & ? & ?). exists z. split; [by right | done].
  - destruct (IH (push_success (id item) p) w') as (ls & lf & H1 & H2 & H3 & H4).
    destruct (forOf env rest _ w') as [[[rest1 p2] w2] brk2]. cbn in *.
    exists (id item :: ls), lf.
    rewrite H1, H2, <- app_assoc. repeat split; try done.
    intros i Hi. apply elem_of_cons in Hi as [-> | Hi].
    + exists item. split; [left | done].
    + destruct (H3 i Hi) as (z & ? & ? & ?). exists z. split; [by right | done].
  - destruct (isNetworkError msg).
    + exists [], [(bumped item, msg)]. cbn. rewrite app_nil_r. repeat split; try done.
      intros i Hi. by apply elem_of_nil in Hi.
    + destruct (IH (push_failed (bumped item) msg p) w') as (ls & lf & H1 & H2 & H3 & H4).
      destruct (forOf env rest _ w') as [[[rest1 p2] w2] brk2]. cbn in *.
      exists ls, ((bumped item, msg) :: lf).
      rewrite H1, H2, <- app_assoc. repeat split; try done.
      intros i Hi. destruct (H3 i Hi) as (z & ? & ? & ?). exists z. split; [by right | done].
Qed.

(** An item at the retry bound is left in the array as it was. *)
Lemma forOf_exhausted_stays items p w z :
  z ∈ items → maxRetries ≤ attempts z → z ∈ (forOf env items p w).1.1.1.
Proof.
  revert p w. induction items as [|item rest IH]; intros p w Hin Hge.
  { by apply elem_of_nil in Hin. }
  rewrite forOf_cons. pose proof (iteration_item env item p w) as I.
  destruct (iteration env item p w) as [[[item1 p1] w1] brk]. cbn in I.
  apply elem_of_cons in Hin as [-> | Hin].
  - rewrite decide_False in I by lia. subst item1.
    destruct brk; [left|].
    destruct (forOf env rest p1 w1) as [[[rest1 p2] w2] brk2]. left.
  - destruct brk; [by right|].
    specialize (IH p1 w1 Hin Hge).
    destruct (forOf env rest p1 w1) as [[[rest1 p2] w2] brk2]. by right.
Qed.

End LoopFacts.

(** ** One call of [processQueue] *)

Section DrainFacts.
Context (env : Env).

Lemma processQueue_noop w :
  guard w = true → processQueue env w = (NoOp, w).
Proof. intros H. unfold processQueue. by rewrite H. Qed.

Lemma processQueue_ran w :
  guard w = false →
  processQueue env w =
    let r := forOf env (syncQueue w) emptyPass (with_syncInProgress true w) in
    (Ran r.1.1.2 r.2, epilogue env r.1.1.2 (with_syncQueue r.1.1.1 r.1.2)).
Proof.
  intros H. unfold processQueue. rewrite H. cbn.
  by destruct (forOf env (syncQueue w) emptyPass _) as [[[??]?]?].
Qed.

Lemma epilogue_fields p w :
  let w' := epilogue env p w in
  syncQueue w' = filter (λ item, id item ∉ successItems p) (syncQueue w) ∧
  syncInProgress w' = false ∧
  onLine w' = onLine w ∧
  db w' = db w ∧
  sent w' = sent w ∧
  bgSent w' = bgSent w ∧
  timers w' = timers w ++ (if 0 <? length (failedItems p) then [retryDelay] else []).
Proof.
  unfold epilogue, scheduleRetry. crush_store; rewrite ?app_nil_r; done.
Qed.

Lemma NoDup_fmap_elem {A B} (f : A → B) (l : list A) x y :
  NoDup (f <$> l) → x ∈ l → y ∈ l → f x = f y → x = y.
Proof.
  induction l as [|a l IH]; intros Hnd Hx Hy Hf.
  { by apply elem_of_nil in Hx. }
  rewrite fmap_cons in Hnd. apply NoDup_cons in Hnd as [Hnot Hnd].
  apply elem_of_cons in Hx as [-> | Hx]; apply elem_of_cons in Hy as [-> | Hy];
    try done.
  - exfalso. apply Hnot. rewrite Hf. by apply list_elem_of_fmap_2.
  - exfalso. apply Hnot. rewrite <- Hf. by apply list_elem_of_fmap_2.
  - by apply IH.
Qed.

End DrainFacts.

(** ** Claims about a drain pass *)

(** Attempted items and reported successes never carry the id of an item
    that sits at the retry bound, when ids are unique in the queue. *)
Lemma attempted_id_differs (q : list QueueItem) (x z : QueueItem) :
  NoDup (id <$> q) → x ∈ q → z ∈ q →
  maxRetries ≤ attempts x → attempts z < maxRetries → id z ≠ id x.
Proof.
  intros Hnd Hx Hz Hge Hlt Heq.
  pose proof (NoDup_fmap_elem id q z x Hnd Hz Hx Heq). subst. lia.
Qed.

Lemma keyed_demoWorld q : keyed (db (demoWorld q)).
Proof.
  induction q as [|it q IH]; cbn.
  - intros k v Hkv. by rewrite lookup_empty in Hkv.
  - by apply keyed_insert.
Qed.

(** C7 (as amended): the delayed retry is scheduled exactly when the pass
    ends with a non-empty failed-report list, and a pass that left its
    loop through the fail-fast [break] always has one: it schedules the
    retry after [retryDelay] = 5000 ms like any other failing pass. *)
Theorem retry_scheduled_when_failures (env : Env) (w : World) :
  guard w = false →
  ∃ p brk w',
    processQueue env w = (Ran p brk, w') ∧
    (failedItems p ≠ [] → timers w' = timers w ++ [retryDelay]) ∧
    (failedItems p = [] → timers w' = timers w) ∧
    (brk = true → timers w' = timers w ++ [retryDelay]).
Proof.
  intros Hg. rewrite (processQueue_ran env w Hg).
  set (r := forOf env (syncQueue w) emptyPass (with_syncInProgress true w)).
  destruct (forOf_pass env (syncQueue w) emptyPass (with_syncInProgress true w))
    as (ls & lf & _ & Hf & _ & Hb).
  destruct (forOf_frame env (syncQueue w) emptyPass (with_syncInProgress true w))
    as (_ & _ & _ & Ht & _).
  fold r in Hf, Hb, Ht. cbn in Hf, Ht.
  destruct (epilogue_fields env r.1.1.2 (with_syncQueue r.1.1.1 r.1.2))
    as (_ & _ & _ & _ & _ & _ & He).
  change (timers (with_syncQueue r.1.1.1 r.1.2)) with (timers r.1.2) in He.
  cbv zeta in He. rewrite Ht in He.
  assert (failedItems r.1.1.2 ≠ [] → timers (epilogue env r.1.1.2
            (with_syncQueue r.1.1.1 r.1.2)) = timers w ++ [retryDelay]) as Hne.
  { intros Hne. rewrite He. destruct (failedItems r.1.1.2); [done|]. done. }
  exists r.1.1.2, r.2, (epilogue env r.1.1.2 (with_syncQueue r.1.1.1 r.1.2)).
  split; [done|]. split; [done|]. split.
  - intros Hnil. rewrite He, Hnil. cbn. by rewrite app_nil_r.
  - intros Hbrk. apply Hne. rewrite Hf. by apply Hb.
Qed.

Lemma retry_scheduled_when_failures_witness :
  ∃ p brk w',
    processQueue (serverSays (Some "Network request failed"))
      (demoWorld [demoItem "a" 0; demoItem "b" 0]) = (Ran p brk, w') ∧
    (failedItems p ≠ [] →
       timers w' = timers (demoWorld [demoItem "a" 0; demoItem "b" 0]) ++ [retryDelay]) ∧
    (failedItems p = [] →
       timers w' = timers (demoWorld [demoItem "a" 0; demoItem "b" 0])) ∧
    (brk = true →
       timers w' = timers (demoWorld [demoItem "a" 0; demoItem "b" 0]) ++ [retryDelay]).
Proof.
  apply (retry_scheduled_when_failures (serverSays (Some "Network request failed"))
           (demoWorld [demoItem "a" 0; demoItem "b" 0])).
  reflexivity.
Defined.

(** C7 as stated fails: with the server rejecting the first item with
    'Network request failed' the pass leaves its loop through [break]
    with the second item untried, and the retry timer is set all the same. *)
Lemma fail_fast_pass_schedules_retry :
  let r := processQueue (serverSays (Some (message NetworkErr)))
             (demoWorld [demoItem "a" 0; demoItem "b" 0]) in
  match r.1 with Ran _ brk => brk | NoOp => false end = true ∧
  sent r.2 = [demoItem "a" 1] ∧
  timers r.2 = [retryDelay].
Proof. vm_compute. repeat split; reflexivity. Qed.

(** C3 (as amended): an item that enters a pass with [attempts >= maxRetries]
    is not handed to the server, keeps its attempts and its status in the
    queue and in the store, and is deleted from neither; it is added to the
    failed-report list when the loop reaches it, that is, unless an earlier
    item of the same pass made the loop break. Ids are unique in the queue
    and records sit under their ids. *)
Theorem exhausted_item_skipped (env : Env) (w : World)
    (pre post : list QueueItem) (x : QueueItem) :
  syncQueue w = pre ++ x :: post →
  NoDup (id <$> syncQueue w) →
  keyed (db w) →
  maxRetries ≤ attempts x →
  guard w = false →
  ∃ p brk w',
    processQueue env w = (Ran p brk, w') ∧
    (∀ y, y ∈ drop (length (sent w)) (sent w') → id y ≠ id x) ∧
    x ∈ syncQueue w' ∧
    db w' !! id x = db w !! id x ∧
    ((forOf env pre emptyPass (with_syncInProgress true w)).2 = false →
       (x, "Max retries exceeded") ∈ failedItems p).
Proof.
  intros Hq Hnd Hk Hge Hg. rewrite (processQueue_ran env w Hg).
  set (w0 := with_syncInProgress true w).
  assert (x ∈ syncQueue w) as Hx by (rewrite Hq; apply elem_of_app; right; left).
  destruct (forOf_sent env (syncQueue w) emptyPass w0) as (l & Hl & Hin).
  destruct (forOf_pass env (syncQueue w) emptyPass w0) as (ls & lf & Hs & Hf & Hsin & _).
  pose proof (forOf_exhausted_stays env (syncQueue w) emptyPass w0 x Hx Hge) as Hstay.
  pose proof (forOf_db_other env (syncQueue w) emptyPass w0 (id x) Hk) as Hdb.
  set (r := forOf env (syncQueue w) emptyPass w0) in *.
  destruct (epilogue_fields env r.1.1.2 (with_syncQueue r.1.1.1 r.1.2))
    as (Eq & _ & _ & Ed & Es & _).
  exists r.1.1.2, r.2, (epilogue env r.1.1.2 (with_syncQueue r.1.1.1 r.1.2)).
  split; [done|]. split; [|split; [|split]].
  - intros y Hy. rewrite Es in Hy.
    change (sent (with_syncQueue r.1.1.1 r.1.2)) with (sent r.1.2) in Hy.
    rewrite Hl in Hy. change (sent w0) with (sent w) in Hy.
    rewrite drop_app_length in Hy.
    destruct (Hin y Hy) as (z & Hz & Hlt & ->).
    change (id (bumped z)) with (id z).
    by apply (attempted_id_differs (syncQueue w)).
  - rewrite Eq. apply list_elem_of_filter. split; [|exact Hstay].
    rewrite Hs. cbn. intros Hi. destruct (Hsin _ Hi) as (z & Hz & Hlt & Heq).
    by apply (attempted_id_differs (syncQueue w) x z).
  - rewrite Ed. change (db (with_syncQueue r.1.1.1 r.1.2)) with (db r.1.2).
    rewrite Hdb; [done|]. intros z Hz Hlt.
    by apply (attempted_id_differs (syncQueue w)).
  - intros Hreach. subst r. rewrite Hq, forOf_app.
    destruct (forOf env pre emptyPass w0) as [[[pre1 p1] w1] brk1]. cbn in Hreach.
    subst brk1. rewrite forOf_cons, (iteration_skip env x p1 w1 Hge).
    destruct (forOf_pass env post (push_failed x "Max retries exceeded" p1) w1)
      as (ls' & lf' & _ & Hf' & _).
    destruct (forOf env post _ w1) as [[[post1 p2] w2] brk2]. cbn in *.
    rewrite Hf'. apply elem_of_app. left. apply elem_of_app. right. left.
Qed.

Lemma exhausted_item_skipped_witness :
  ∃ p brk w',
    processQueue (serverSays (Some "Invalid data format"))
      (demoWorld [demoItem "a" 0; demoItem "x" 3; demoItem "b" 1]) = (Ran p brk, w') ∧
    (∀ y, y ∈ drop (length (sent (demoWorld [demoItem "a" 0; demoItem "x" 3; demoItem "b" 1])))
                (sent w') → id y ≠ id (demoItem "x" 3)) ∧
    demoItem "x" 3 ∈ syncQueue w' ∧
    db w' !! id (demoItem "x" 3) =
      db (demoWorld [demoItem "a" 0; demoItem "x" 3; demoItem "b" 1]) !! id (demoItem "x" 3) ∧
    ((forOf (serverSays (Some "Invalid data format")) [demoItem "a" 0] emptyPass
        (with_syncInProgress true
           (demoWorld [demoItem "a" 0; demoItem "x" 3; demoItem "b" 1]))).2 = false →
       (demoItem "x" 3, "Max retries exceeded") ∈ failedItems p).
Proof.
  apply (exhausted_item_skipped (serverSays (Some "Invalid data format"))
           (demoWorld [demoItem "a" 0; demoItem "x" 3; demoItem "b" 1])
           [demoItem "a" 0] [demoItem "b" 1] (demoItem "x" 3)).
  - reflexivity.
  - apply (bool_decide_unpack _). vm_compute. exact I.
  - apply keyed_demoWorld.
  - cbn. unfold maxRetries. lia.
  - reflexivity.
Defined.

(** C3 as stated fails when an earlier item makes the loop break: the
    exhausted item behind it is never visited, so the failed-report list
    of that pass holds the earlier item only. *)
Lemma exhausted_item_behind_break_unreported :
  let x := demoItem "x" 3 in
  let r := processQueue (serverSays (Some (message NetworkErr)))
             (demoWorld [demoItem "a" 0; x]) in
  maxRetries ≤ attempts x ∧ status x = pending ∧
  match r.1 with
  | Ran p _ => failedItems p = [(demoItem "a" 1, "Network request failed")]
  | NoOp => False
  end.
Proof. vm_compute. repeat split; (lia || reflexivity). Qed.

Lemma iteration_rejected (env : Env) x p w msg :
  attempts x < maxRetries →
  send env (length (sent w)) (bumped x) = Some msg →
  ∃ w1, sent w1 = sent w ++ [bumped x] ∧
        iteration env x p w =
          (bumped x, push_failed (bumped x) msg p, w1, isNetworkError msg).
Proof.
  intros Hlt Hsend.
  destruct (iteration_cases env x p w) as [[Hge _] | (_ & w1 & Hs & [[E _] | (m & E & Hi)])].
  - lia.
  - congruence.
  - exists w1. split; [done|]. congruence.
Qed.

(** C1 (as amended): when the delivery of an item the pass has reached is
    rejected with an error whose message contains 'Network' or 'Failed to
    fetch', the loop breaks at once: that delivery is the last one of the
    pass, and every later item stays in the queue and in the store exactly
    as it was. Any other rejection - 'Server timeout' as much as
    'Invalid data format' or 'Authentication required' - is recorded
    against the item and the pass goes on to the next item in queue order. *)
Theorem fail_fast_on_network_error (env : Env) (w : World)
    (pre post : list QueueItem) (x : QueueItem) (msg : string) :
  syncQueue w = pre ++ x :: post →
  NoDup (id <$> syncQueue w) →
  keyed (db w) →
  guard w = false →
  attempts x < maxRetries →
  (forOf env pre emptyPass (with_syncInProgress true w)).2 = false →
  send env (length (sent (forOf env pre emptyPass (with_syncInProgress true w)).1.2))
    (bumped x) = Some msg →
  ∃ p brk w',
    processQueue env w = (Ran p brk, w') ∧
    (bumped x, msg) ∈ failedItems p ∧
    (isNetworkError msg = true →
       brk = true ∧
       sent w' = sent (forOf env pre emptyPass (with_syncInProgress true w)).1.2
                   ++ [bumped x] ∧
       ∀ y, y ∈ post → y ∈ syncQueue w' ∧ db w' !! id y = db w !! id y) ∧
    (isNetworkError msg = false →
       ∀ y post', post = y :: post' →
         (attempts y < maxRetries →
            bumped y ∈ drop
              (S (length (sent (forOf env pre emptyPass (with_syncInProgress true w)).1.2)))
              (sent w')) ∧
         (maxRetries ≤ attempts y → (y, "Max retries exceeded") ∈ failedItems p)).
Proof.
  intros Hq Hnd Hk Hg Hlt Hreach Hsend. rewrite (processQueue_ran env w Hg).
  set (w0 := with_syncInProgress true w) in *.
  pose proof (forOf_keyed env pre emptyPass w0 Hk) as Hk1.
  pose proof (forOf_db_other env pre emptyPass w0) as Hdb1.
  destruct (forOf_pass env pre emptyPass w0) as (ls1 & lf1 & Hs1 & Hf1 & Hsin1 & _).
  rewrite Hq, forOf_app.
  destruct (forOf env pre emptyPass w0) as [[[pre1 p1] w1] brk1].
  cbn in Hreach, Hsend, Hk1, Hdb1, Hs1, Hf1. subst brk1.
  destruct (iteration_rejected env x p1 w1 msg Hlt Hsend) as (w2 & Hs2 & E).
  pose proof (iteration_db_other env x p1 w1) as Hdb2.
  pose proof (iteration_keyed env x p1 w1 Hk1) as Hk2.
  rewrite forOf_cons, E. rewrite E in Hdb2, Hk2. cbn in Hdb2, Hk2.
  rewrite Hq, fmap_app, fmap_cons in Hnd.
  apply NoDup_app in Hnd as (Hnd1 & Hdisj & Hnd2).
  apply NoDup_cons in Hnd2 as (Hxpost & Hnd3).
  destruct (isNetworkError msg) eqn:Enet.
  - (* the loop breaks *)
    cbn -[epilogue].
    set (q := pre1 ++ bumped x :: post).
    set (p := push_failed (bumped x) msg p1).
    destruct (epilogue_fields env p (with_syncQueue q w2)) as (Eq & _ & _ & Ed & Es & _).
    exists p, true, (epilogue env p (with_syncQueue q w2)).
    split; [done|]. split; [subst p; cbn; apply elem_of_app; right; left|].
    split; [|done].
    intros _. split; [done|]. split; [by rewrite Es|].
    intros y Hy.
    assert (id y ≠ id x) as Hyx.
    { intros Heq. apply Hxpost. rewrite <- Heq. by apply list_elem_of_fmap_2. }
    assert (∀ z, z ∈ pre → id z ≠ id y) as Hpre.
    { intros z Hz Heq. apply (Hdisj (id z)); [by apply list_elem_of_fmap_2|].
      right. rewrite Heq. by apply list_elem_of_fmap_2. }
    split.
    + rewrite Eq. apply list_elem_of_filter.
      split; [|subst q; cbn; apply elem_of_app; right; by right].
      subst p. cbn. rewrite Hs1. cbn. intros Hi.
      destruct (Hsin1 _ Hi) as (z & Hz & _ & Heq). by apply (Hpre z).
    + rewrite Ed. cbn. rewrite Hdb2 by done.
      apply Hdb1; [done|]. intros z Hz _. by apply Hpre.
  - (* the loop goes on *)
    set (p2 := push_failed (bumped x) msg p1).
    destruct (forOf_pass env post p2 w2) as (ls3 & lf3 & _ & Hf3 & _).
    pose proof (forOf_sent env post p2 w2) as Hsent3.
    assert (∀ y post', post = y :: post' →
              (attempts y < maxRetries →
                 ∃ l, sent (forOf env post p2 w2).1.2 = sent w2 ++ bumped y :: l) ∧
              (maxRetries ≤ attempts y →
                 (y, "Max retries exceeded") ∈ failedItems (forOf env post p2 w2).1.1.2))
      as Hnext.
    { intros y post' ->. rewrite forOf_cons. split.
      - intros Hy.
        destruct (iteration_attempt env y p2 w2 Hy) as (w3 & -> & Hs3).
        destruct (forOf_sent env post' (match send env (length (sent w2)) (bumped y) with
                    | Some m => push_failed (bumped y) m p2
                    | None => push_success (id y) p2 end) w3) as (l & Hl & _).
        destruct (match send env (length (sent w2)) (bumped y) with
                  | Some m => isNetworkError m | None => false end).
        + exists []. done.
        + destruct (forOf env post' _ w3) as [[[post1 p3] w4] brk4]. cbn in *.
          exists l. rewrite Hl, Hs3, <- app_assoc. done.
      - intros Hy. rewrite (iteration_skip env y p2 w2 Hy).
        destruct (forOf_pass env post' (push_failed y "Max retries exceeded" p2) w2)
          as (ls4 & lf4 & _ & Hf4 & _).
        destruct (forOf env post' _ w2) as [[[post1 p3] w4] brk4]. cbn in *.
        rewrite Hf4. apply elem_of_app. left. apply elem_of_app. right. left. }
    destruct (forOf env post p2 w2) as [[[post1 p3] w3] brk3]. cbn -[epilogue] in *.
    destruct (epilogue_fields env p3 (with_syncQueue (pre1 ++ bumped x :: post1) w3))
      as (_ & _ & _ & _ & Es & _).
    exists p3, brk3, (epilogue env p3 (with_syncQueue (pre1 ++ bumped x :: post1) w3)).
    split; [done|].
    split; [rewrite Hf3; subst p2; cbn; apply elem_of_app; left;
            apply elem_of_app; right; left|].
    split; [done|]. intros _ y post' Hpost.
    destruct (Hnext y post' Hpost) as [Ha Hb]. split; [|exact Hb].
    intros Hy. destruct (Ha Hy) as (l & Hl).
    rewrite Es. cbn. rewrite Hl, Hs2, <- app_assoc. cbn.
    replace (S (length (sent w1))) with (length (sent w1 ++ [bumped x]))
      by (rewrite length_app; cbn; lia).
    change (sent w1 ++ bumped x :: bumped y :: l)
      with (sent w1 ++ [bumped x] ++ bumped y :: l).
    rewrite (app_assoc (sent w1) [bumped x]), drop_app_length. left.
Qed.

Lemma fail_fast_on_network_error_witness :
  let env := serverSays (Some "Network request failed") in
  let c := demoItem "c" 3 in
  let a := demoItem "a" 0 in
  let b := demoItem "b" 0 in
  let w := demoWorld [c; a; b] in
  ∃ p brk w',
    processQueue env w = (Ran p brk, w') ∧
    (bumped a, "Network request failed") ∈ failedItems p ∧
    (isNetworkError "Network request failed" = true →
       brk = true ∧
       sent w' = sent (forOf env [c] emptyPass (with_syncInProgress true w)).1.2
                   ++ [bumped a] ∧
       ∀ y, y ∈ [b] → y ∈ syncQueue w' ∧ db w' !! id y = db w !! id y) ∧
    (isNetworkError "Network request failed" = false →
       ∀ y post', [b] = y :: post' →
         (attempts y < maxRetries →
            bumped y ∈ drop
              (S (length (sent (forOf env [c] emptyPass (with_syncInProgress true w)).1.2)))
              (sent w')) ∧
         (maxRetries ≤ attempts y → (y, "Max retries exceeded") ∈ failedItems p)).
Proof.
  intros env c a b w.
  apply (fail_fast_on_network_error env w [c] [b] a "Network request failed").
  - reflexivity.
  - apply (bool_decide_unpack _). vm_compute. exact I.
  - apply keyed_demoWorld.
  - reflexivity.
  - cbn. unfold maxRetries. lia.
  - reflexivity.
  - reflexivity.
Defined.

(** Of the four errors [sendToServer] rejects with, only the first passes
    the test that breaks the loop. *)
Lemma isNetworkError_message e :
  isNetworkError (message e) =
    match e with NetworkErr => true | _ => false end.
Proof. by destruct e. Qed.

(** C1 as stated fails for the timeout error: its message, 'Server
    timeout', contains neither 'Network' nor 'Failed to fetch', so after
    the first item is rejected with it the second item is attempted too. *)
Lemma timeout_does_not_stop_pass :
  let r := processQueue (serverSays (Some (message TimeoutErr)))
             (demoWorld [demoItem "a" 0; demoItem "b" 0]) in
  transportClass TimeoutErr = true ∧
  isNetworkError (message TimeoutErr) = false ∧
  sent r.2 = [demoItem "a" 1; demoItem "b" 1].
Proof. vm_compute. repeat split; reflexivity. Qed.

(** ** Attempts under drains and under background sync *)

Section DrainAttempts.
Context (env : Env).

(** Item by item, the array after a loop holds the item it held before, or
    that item with one more attempt, the latter only for an item that was
    below the retry bound. *)
Lemma forOf_items items p w :
  Forall2 (λ a b, b = a ∨ (attempts a < maxRetries ∧ b = bumped a))
    items (forOf env items p w).1.1.1.
Proof.
  revert p w. induction items as [|item rest IH]; intros p w; [constructor|].
  rewrite forOf_cons. pose proof (iteration_item env item p w) as I.
  destruct (iteration env item p w) as [[[item1 p1] w1] brk]. cbn in I.
  assert (item1 = item ∨ (attempts item < maxRetries ∧ item1 = bumped item)) as H1.
  { case_decide; [right | left]; done. }
  destruct brk.
  - constructor; [done|]. apply Forall2_same_length_lookup_2; [done|].
    intros i a b Ha Hb. left. congruence.
  - specialize (IH p1 w1).
    destruct (forOf env rest p1 w1) as [[[rest1 p2] w2] brk2].
    by constructor.
Qed.

(** In the queue a drain never lowers an item's attempts, raises them
    only for an item below [maxRetries], and by one. *)
Lemma drain_attempts_in_queue w b :
  b ∈ syncQueue (processQueue env w).2 →
  ∃ a, a ∈ syncQueue w ∧ (b = a ∨ (attempts a < maxRetries ∧ b = bumped a)).
Proof.
  destruct (guard w) eqn:Hg.
  - rewrite (processQueue_noop env w Hg). eauto.
  - rewrite (processQueue_ran env w Hg). cbn -[epilogue].
    destruct (epilogue_fields env
      (forOf env (syncQueue w) emptyPass (with_syncInProgress true w)).1.1.2
      (with_syncQueue
         (forOf env (syncQueue w) emptyPass (with_syncInProgress true w)).1.1.1
         (forOf env (syncQueue w) emptyPass (with_syncInProgress true w)).1.2))
      as (-> & _).
    intros [_ Hb]%list_elem_of_filter. cbn in Hb.
    pose proof (forOf_items (syncQueue w) emptyPass (with_syncInProgress true w)) as F.
    apply list_elem_of_lookup in Hb as [i Hi].
    destruct (Forall2_lookup_r _ _ _ _ _ F Hi) as (a & Ha & Hab).
    exists a. split; [|done]. apply list_elem_of_lookup. eauto.
Qed.

Lemma drain_keeps_attempts_bounded w :
  Forall (λ it, attempts it ≤ maxRetries) (syncQueue w) →
  Forall (λ it, attempts it ≤ maxRetries) (syncQueue (processQueue env w).2).
Proof.
  rewrite !Forall_forall. intros H b Hb.
  destruct (drain_attempts_in_queue w b Hb) as (a & Ha & [-> | [Hlt ->]]).
  - by apply H.
  - cbn. lia.
Qed.

End DrainAttempts.

(** C2, the code at the failing input: an item enqueued while offline and
    then met by four failing background syncs is left in the store with
    [attempts = 4], above [maxRetries = 3], still pending; and a drain that
    follows two failing background syncs writes the queue's own count over
    the stored one, taking it from 2 down to 1. *)
Theorem background_sync_exceeds_maxRetries :
  let env := serverSays (Some (message ValidationErr)) in
  let w2 := run env [OpEnqueue demoDescriptor; OpBackgroundSync; OpBackgroundSync]
              (initial false) in
  let w4 := run env [OpBackgroundSync; OpBackgroundSync] w2 in
  maxRetries = 3 ∧
  attempts <$> db w4 !! "k1" = Some 4 ∧
  status <$> db w4 !! "k1" = Some pending ∧
  attempts <$> db w2 !! "k1" = Some 2 ∧
  attempts <$> db (apply env w2 (OpConnectivity true)) !! "k1" = Some 1.
Proof. vm_compute. repeat split; reflexivity. Qed.

(** ** Single flight *)

Section SingleFlight.
Context (env : Env).

Lemma guard_true w :
  guard w = true ↔
  syncInProgress w = true ∨ syncQueue w = [] ∨ onLine w = false.
Proof.
  unfold guard. rewrite !orb_true_iff, negb_true_iff, Nat.eqb_eq.
  split; (intros [[H|H]|H]; [by left | right; left | by right; right])
    || (intros [H|[H|H]]; [by left; left | left; right | by right]).
  - by apply nil_length_inv.
  - by rewrite H.
Qed.

Lemma enqueue_flag d w :
  syncInProgress (enqueue env d w).2 = syncInProgress w.
Proof. unfold enqueue. crush_store. Qed.

Lemma markAsSynced_flag i w :
  syncInProgress (markAsSynced env i w).2 = syncInProgress w.
Proof. crush_store. Qed.

Lemma updateRetryCount_flag i w :
  syncInProgress (updateRetryCount env i w).2 = syncInProgress w.
Proof. crush_store. Qed.

Lemma bgTry_flag item w :
  syncInProgress (bgTry env item w).2 = syncInProgress w.
Proof.
  unfold bgTry, bgSend.
  destruct (syncToServer env (length (bgSent w)) item); [|done].
  pose proof (markAsSynced_flag (id item) (with_bgSent (bgSent w ++ [item]) w)) as F.
  by destruct (markAsSynced env (id item) _) as [[|e] w2].
Qed.

Lemma bgLoop_flag items w :
  syncInProgress (bgLoop env items w).2 = syncInProgress w.
Proof.
  revert w. induction items as [|item rest IH]; intros w; [done|].
  cbn [bgLoop]. pose proof (bgTry_flag item w) as F.
  destruct (bgTry env item w) as [[|] w2]; cbn in F.
  - rewrite IH. exact F.
  - pose proof (updateRetryCount_flag (id item) w2) as F2.
    destruct (updateRetryCount env (id item) w2) as [[|e2] w3]; cbn in F2 |- *.
    + rewrite IH. congruence.
    + congruence.
Qed.

Lemma syncPendingData_flag w :
  syncInProgress (syncPendingData env w) = syncInProgress w.
Proof.
  unfold syncPendingData, getPendingSyncItems, request. cbn.
  destruct (fault env (requests w)); [done|]. cbn.
  destruct (fault env (S (requests w))); [done|].
  by rewrite bgLoop_flag.
Qed.

Lemma epilogue_flag p w : syncInProgress (epilogue env p w) = false.
Proof. by destruct (epilogue_fields env p w) as (_ & ? & _). Qed.

Lemma leave_fields p w :
  let r := leave env p w in
  syncQueue r.2 = filter (λ item, id item ∉ successItems p) (syncQueue w) ∧
  syncInProgress r.2 = false ∧
  onLine r.2 = onLine w ∧
  db r.2 = db w ∧
  sent r.2 = sent w ∧
  timers r.2 = timers w ++ (if 0 <? length (failedItems p) then [retryDelay] else []).
Proof.
  unfold leave, scheduleRetry. crush_store; rewrite ?app_nil_r; done.
Qed.

Lemma settle_fields t w :
  let w' := settle env t w in
  syncQueue w' = syncQueue w ∧ syncInProgress w' = syncInProgress w ∧
  onLine w' = onLine w ∧ db w' = db w ∧ sent w' = sent w ∧ timers w' = timers w.
Proof.
  unfold settle, setSetting_lastSync, request. cbn.
  by destruct (fault env (requests w)).
Qed.

(** The one-call [epilogue] is the synchronous part followed by the
    completion of the write it awaits. *)
Lemma epilogue_leave p w :
  epilogue env p w = settle env (leave env p w).1 (leave env p w).2.
Proof. reflexivity. Qed.

Lemma call_single_flight s : single_flight s → single_flight (call s).
Proof.
  unfold call. destruct (guard (world s)) eqn:G; [done|].
  unfold single_flight. cbn.
  destruct (running s) as [|i [|j l]]; [done | | done].
  intros Hflag. unfold guard in G. by rewrite Hflag in G.
Qed.

Lemma finish_fields k p w s :
  world (finish env k p w s) = (leave env p w).2 ∧
  running (finish env k p w s) = delete k (running s) ∧
  settling (finish env k p w s) = settling s ++ [(leave env p w).1].
Proof. unfold finish. by destruct (leave env p w). Qed.

Lemma resume_single_flight k s : single_flight s → single_flight (resume env k s).
Proof.
  unfold resume. destruct (running s !! k) as [inv|] eqn:Hk; [|done].
  unfold single_flight at 1.
  destruct (running s) as [|i [|j l]] eqn:Hr; [done | | done].
  intros Hflag. destruct k as [|k]; [|done]. cbn in Hk. simplify_eq.
  assert (∀ p w, single_flight (finish env 0 p w s)) as Hfin.
  { intros p w. destruct (finish_fields 0 p w s) as (Hw & Hrun & _).
    unfold single_flight. rewrite Hrun, Hw, Hr. cbn.
    by destruct (leave_fields p w) as (_ & ? & _). }
  destruct (syncQueue (world s) !! cursor inv) as [item|]; [|apply Hfin].
  pose proof (iteration_frame env item (locals inv) (world s)) as F.
  destruct (iteration env item (locals inv) (world s)) as [[[item1 p1] w1] brk].
  cbn in F. destruct F as (_ & F & _).
  destruct brk; [apply Hfin|].
  unfold single_flight; cbn. congruence.
Qed.

Lemma step_single_flight s ev : single_flight s → single_flight (step env s ev).
Proof.
  intros H. destruct ev as [|k| |d|b| |]; cbn [step].
  - by apply call_single_flight.
  - by apply resume_single_flight.
  - destruct (settling s) as [|t rest]; [done|].
    unfold single_flight in *. cbn [world running].
    by destruct (settle_fields t (world s)) as (_ & -> & _).
  - pose proof (enqueue_flag d (world s)) as F.
    destruct (enqueue env d (world s)) as [c w1]. cbn in F.
    assert (single_flight (with_world w1 s)) as H1.
    { unfold single_flight in *. cbn [world running with_world]. rewrite F. exact H. }
    destruct c; [|done].
    destruct (onLine w1); [by apply call_single_flight | done].
  - assert (single_flight (with_world (with_onLine b (world s)) s)) as H1
      by exact H.
    destruct b; [by apply call_single_flight | done].
  - destruct (timers (world s)) as [|t rest]; [done|].
    assert (single_flight (with_world (with_timers rest (world s)) s)) as H1
      by exact H.
    destruct (_ && _); [by apply call_single_flight | done].
  - unfold single_flight in *. cbn [world running with_world].
    rewrite syncPendingData_flag. exact H.
Qed.

Lemma steps_single_flight evs s : single_flight s → single_flight (steps env evs s).
Proof.
  revert s. induction evs as [|ev evs IH]; intros s H; [done|].
  cbn. apply IH. by apply step_single_flight.
Qed.

End SingleFlight.

(** ** Agreement of the interleaved and the uninterrupted reading *)

Section Agreement.
Context (env : Env).

Lemma updateQueueItem_with_syncQueue q i u w :
  updateQueueItem env i u (with_syncQueue q w) =
    ((updateQueueItem env i u w).1, with_syncQueue q (updateQueueItem env i u w).2).
Proof. crush_store. Qed.

Lemma iteration_with_syncQueue q item p w :
  iteration env item p (with_syncQueue q w) =
    ((iteration env item p w).1.1, with_syncQueue q (iteration env item p w).1.2,
     (iteration env item p w).2).
Proof.
  unfold iteration. destruct (maxRetries <=? attempts item); [done|].
  rewrite updateQueueItem_with_syncQueue.
  destruct (updateQueueItem env (id (bumped item)) _ w) as [c1 w1].
  unfold sendToServer, Date_now. cbn.
  destruct (send env (length (sent w1)) (bumped item)) as [msg|].
  - change (with_dates ?n (with_sent ?l (with_syncQueue q w1)))
      with (with_syncQueue q (with_dates n (with_sent l w1))).
    rewrite updateQueueItem_with_syncQueue.
    match goal with |- context [updateQueueItem env ?i ?u ?x] =>
      by destruct (updateQueueItem env i u x) as [c2 w2] end.
  - change (with_dates ?n (with_sent ?l (with_syncQueue q w1)))
      with (with_syncQueue q (with_dates n (with_sent l w1))).
    rewrite updateQueueItem_with_syncQueue.
    match goal with |- context [updateQueueItem env ?i ?u ?x] =>
      by destruct (updateQueueItem env i u x) as [c2 w2] end.
Qed.

Lemma insert_middle {A} (l1 l2 : list A) x y :
  <[length l1 := y]> (l1 ++ x :: l2) = l1 ++ y :: l2.
Proof. rewrite insert_app_r_alt by done. by rewrite Nat.sub_diag. Qed.

(** A suspended pass resumed until it leaves its loop, with nothing in
    between, does what the loop and the statements after it do, in at
    most one resumption per remaining item and one more. *)
Lemma resume_to_end done rest p w ts :
  ∃ n, 1 ≤ n ≤ S (length rest) ∧
    steps env (replicate n (EvResume 0))
      {| world := with_syncQueue (done ++ rest) w;
         running := [{| cursor := length done; locals := p |}];
         settling := ts |}
    = let r := forOf env rest p w in
      let e := leave env r.1.1.2 (with_syncQueue (done ++ r.1.1.1) r.1.2) in
      {| world := e.2; running := []; settling := ts ++ [e.1] |}.
Proof.
  revert done p w. induction rest as [|item rest IH]; intros done p w.
  - exists 1. split; [done|]. cbn -[leave]. unfold resume. cbn -[leave].
    rewrite app_nil_r, lookup_ge_None_2 by done.
    unfold finish. cbn -[leave]. by destruct (leave env p _).
  - rewrite forOf_cons.
    pose proof (iteration_with_syncQueue (done ++ item :: rest) item p w) as C.
    destruct (iteration env item p w) as [[[item1 p1] w1] brk] eqn:E. cbn in C.
    destruct brk.
    + exists 1. split; [cbn; lia|]. cbn -[leave]. unfold resume. cbn -[leave].
      rewrite list_lookup_middle by done. rewrite C.
      cbn -[leave]. rewrite insert_middle.
      unfold finish. cbn -[leave]. by destruct (leave env p1 _).
    + destruct (IH (done ++ [item1]) p1 w1) as (n & Hle & Hn).
      exists (S n). split; [cbn; lia|].
      change (steps env (replicate (S n) (EvResume 0)) ?s)
        with (steps env (replicate n (EvResume 0)) (resume env 0 s)).
      unfold resume. cbn -[leave steps].
      rewrite list_lookup_middle by done. rewrite C.
      cbn -[leave steps]. rewrite insert_middle.
      rewrite length_app, Nat.add_1_r, <- app_assoc in Hn. cbn [app] in Hn.
      destruct (forOf env rest p1 w1) as [[[rest1 p2] w2] brk2].
      cbn -[leave steps] in Hn |- *.
      rewrite <- app_assoc in Hn. exact Hn.
Qed.

(** Whatever state a pass is suspended in, resuming it and nothing else
    makes it leave its loop: the flag is down and its write of [lastSync]
    is under way. *)
Lemma call_starts s :
  running s = [] → syncInProgress (world s) = false →
  syncQueue (world s) ≠ [] → onLine (world s) = true →
  running (call s) = [{| cursor := 0; locals := emptyPass |}] ∧
  syncInProgress (world (call s)) = true.
Proof.
  intros Hr Hf Hq Ho. unfold call.
  assert (guard (world s) = false) as ->.
  { unfold guard. rewrite Hf, Ho. by destruct (syncQueue (world s)). }
  by rewrite Hr.
Qed.

Lemma pass_ends s inv :
  running s = [inv] →
  ∃ n, 1 ≤ n ≤ S (length (syncQueue (world s))) ∧
    let s' := steps env (replicate n (EvResume 0)) s in
    running s' = [] ∧ syncInProgress (world s') = false ∧
    length (settling s') = S (length (settling s)).
Proof.
  intros Hr.
  destruct (decide (cursor inv ≤ length (syncQueue (world s)))) as [Hc|Hc].
  - destruct (resume_to_end (take (cursor inv) (syncQueue (world s)))
                (drop (cursor inv) (syncQueue (world s))) (locals inv) (world s)
                (settling s)) as (n & Hle & Hn).
    rewrite take_drop, length_take, Nat.min_l in Hn by done.
    replace {| world := with_syncQueue (syncQueue (world s)) (world s);
               running := [{| cursor := cursor inv; locals := locals inv |}];
               settling := settling s |} with s in Hn
      by (destruct s as [[] ? ?], inv; cbn in *; by subst).
    exists n. split.
    { rewrite length_drop in Hle. lia. }
    cbv zeta in Hn |- *. rewrite Hn. cbn [running world settling].
    split; [done|]. split.
    + match goal with |- context [leave env ?p ?w] =>
        by destruct (leave_fields env p w) as (_ & ? & _) end.
    + rewrite length_app. cbn. lia.
  - exists 1. split; [lia|]. cbn -[leave]. unfold resume. rewrite Hr. cbn -[leave].
    rewrite lookup_ge_None_2 by lia.
    destruct (finish_fields env 0 (locals inv) (world s) s) as (-> & -> & ->).
    rewrite Hr. cbn -[leave]. split; [done|]. split.
    + by destruct (leave_fields env (locals inv) (world s)) as (_ & ? & _).
    + rewrite length_app. cbn. lia.
Qed.

(** A pass started where none is under way and resumed until it leaves
    its loop, with nothing in between, leaves the world [processQueue]
    returns, up to the write of [lastSync] that is still awaited. *)
Lemma uninterrupted_pass s :
  running s = [] →
  guard (world s) = false →
  ∃ n p brk t w1,
    processQueue env (world s) = (Ran p brk, settle env t w1) ∧
    steps env (EvCall :: replicate n (EvResume 0)) s
      = {| world := w1; running := []; settling := settling s ++ [t] |} ∧
    syncInProgress w1 = false.
Proof.
  intros Hr Hg. rewrite (processQueue_ran env _ Hg).
  destruct (resume_to_end [] (syncQueue (world s)) emptyPass
              (with_syncInProgress true (world s)) (settling s)) as (n & _ & Hn).
  set (r := forOf env (syncQueue (world s)) emptyPass
              (with_syncInProgress true (world s))) in *.
  set (e := leave env r.1.1.2 (with_syncQueue ([] ++ r.1.1.1) r.1.2)) in *.
  exists n, r.1.1.2, r.2, e.1, e.2.
  split; [|split].
  - cbv zeta. by f_equal.
  - change (steps env (EvCall :: ?l) ?x) with (steps env l (call x)).
    unfold call. rewrite Hg, Hr. cbn [app length] in Hn |- *.
    replace (with_syncQueue (syncQueue (world s)) (with_syncInProgress true (world s)))
      with (with_syncInProgress true (world s)) in Hn by (by destruct (world s)).
    exact Hn.
  - subst e. by match goal with |- context [leave env ?p ?w] =>
      destruct (leave_fields env p w) as (_ & ? & _) end.
Qed.

End Agreement.

(** C4: in every state the page reaches from a state with the flag down,
    under any interleaving of calls of [processQueue], resumptions of a
    suspended pass, completions of the final write of [lastSync],
    enqueues, connectivity changes, retry timers and background syncs, at
    most one invocation is between the guard and the reset of the flag,
    and the flag is up exactly while one is. A call made while the flag is
    up, the queue is empty or the page is offline returns at once and
    changes nothing. An invocation that has reset the flag only awaits the
    write of [lastSync], which touches no queue item, no record and not
    the flag. A pass that is under way, when resumed, leaves its loop
    after at most one resumption per queue item and one more, and has
    then cleared the flag, so that a call made then, with a non-empty
    queue and connectivity, starts a pass. Whenever the flag is down, the
    queue is
    non-empty and the page is online, a call passes the guard, raises
    the flag and runs the pass [processQueue] describes. *)
Theorem at_most_one_drain (env : Env) (evs : list Event) (w0 : World) :
  syncInProgress w0 = false →
  let s := steps env evs (boot w0) in
  (length (running s) ≤ 1 ∧
   (syncInProgress (world s) = true ↔ running s ≠ [])) ∧
  (syncInProgress (world s) = true ∨ syncQueue (world s) = [] ∨ onLine (world s) = false →
     step env s EvCall = s ∧ processQueue env (world s) = (NoOp, world s)) ∧
  (let s' := step env s EvSettle in
   running s' = running s ∧ syncQueue (world s') = syncQueue (world s) ∧
   db (world s') = db (world s) ∧ sent (world s') = sent (world s) ∧
   timers (world s') = timers (world s) ∧
   syncInProgress (world s') = syncInProgress (world s)) ∧
  (running s ≠ [] →
     ∃ n, 1 ≤ n ≤ S (length (syncQueue (world s))) ∧
       let s' := steps env (replicate n (EvResume 0)) s in
       running s' = [] ∧ syncInProgress (world s') = false ∧
       length (settling s') = S (length (settling s)) ∧
       (syncQueue (world s') ≠ [] → onLine (world s') = true →
          running (step env s' EvCall) = [{| cursor := 0; locals := emptyPass |}] ∧
          syncInProgress (world (step env s' EvCall)) = true)) ∧
  (guard (world s) = false →
     running (step env s EvCall) = [{| cursor := 0; locals := emptyPass |}] ∧
     syncInProgress (world (step env s EvCall)) = true ∧
     ∃ n p brk t w1,
       processQueue env (world s) = (Ran p brk, settle env t w1) ∧
       steps env (EvCall :: replicate n (EvResume 0)) s
         = {| world := w1; running := []; settling := settling s ++ [t] |} ∧
       syncInProgress w1 = false).
Proof.
  intros H0 s.
  assert (single_flight s) as Hsf by (apply steps_single_flight; exact H0).
  assert (guard (world s) = false → running s = []) as Hidle.
  { intros Hg. unfold single_flight in Hsf. unfold guard in Hg.
    destruct (running s) as [|i [|j l]]; [done | | done].
    by rewrite Hsf in Hg. }
  split; [split|split; [|split; [|split]]].
  - unfold single_flight in Hsf. destruct (running s) as [|i [|j l]]; cbn; [lia | lia | done].
  - unfold single_flight in Hsf. destruct (running s) as [|i [|j l]]; [|done..].
    rewrite Hsf. split; done.
  - intros Hg%guard_true. cbn [step]. unfold call. rewrite Hg.
    split; [done | by apply processQueue_noop].
  - cbn [step]. destruct (settling s) as [|t rest]; [done|]. cbn [running world].
    destruct (settle_fields env t (world s)) as (? & ? & _ & ? & ? & ?). done.
  - intros Hne. unfold single_flight in Hsf.
    destruct (running s) as [|inv [|j l]] eqn:Hr; [done | | done].
    destruct (pass_ends env s inv Hr) as (n & Hle & Hrun & Hflag & Hlen).
    exists n. split; [exact Hle|]. cbv zeta.
    split; [exact Hrun|]. split; [exact Hflag|]. split; [exact Hlen|].
    intros Hq Ho. cbn [step]. by apply call_starts.
  - intros Hg. specialize (Hidle Hg).
    split; [|split].
    + cbn [step]. unfold call. by rewrite Hg, Hidle.
    + cbn [step]. unfold call. by rewrite Hg.
    + exact (uninterrupted_pass env s Hidle Hg).
Qed.

Lemma at_most_one_drain_witness :
  let env := serverSays (Some "Invalid data format") in
  let w := demoWorld [demoItem "a" 0] in
  let busy := steps env [EvCall; EvCall; EvEnqueue demoDescriptor] (boot w) in
  let ended := steps env [EvCall; EvResume 0; EvResume 0] (boot w) in
  (length (running busy) = 1 ∧ step env busy EvCall = busy ∧
   ∃ n, let s' := steps env (replicate n (EvResume 0)) busy in
        running s' = [] ∧ syncInProgress (world s') = false ∧
        running (step env s' EvCall) = [{| cursor := 0; locals := emptyPass |}] ∧
        syncInProgress (world (step env s' EvCall)) = true) ∧
  (running ended = [] ∧ syncInProgress (world ended) = false ∧
   syncQueue (world ended) ≠ [] ∧
   running (step env ended EvCall) = [{| cursor := 0; locals := emptyPass |}] ∧
   syncInProgress (world (step env ended EvCall)) = true).
Proof.
  intros env w busy ended. split.
  - destruct (at_most_one_drain env [EvCall; EvCall; EvEnqueue demoDescriptor] w
                eq_refl) as (_ & Hnoop & _ & Hend & _).
    split; [reflexivity|]. split.
    + apply Hnoop. left. reflexivity.
    + destruct Hend as (n & Hle & Hrun & Hflag & _ & Hnext);
        [vm_compute; discriminate|].
      exists n. cbv zeta. split; [exact Hrun|]. split; [exact Hflag|].
      assert (n = 3) as ->.
      { destruct n as [|[|[|[|n]]]];
          [lia | vm_compute in Hrun; discriminate
          | vm_compute in Hrun; discriminate | reflexivity
          | vm_compute in Hle; lia]. }
      apply Hnext; [vm_compute; discriminate | reflexivity].
  - destruct (at_most_one_drain env [EvCall; EvResume 0; EvResume 0] w
                eq_refl) as (_ & _ & _ & _ & Hcall).
    destruct Hcall as (? & ? & _); [reflexivity|].
    split; [reflexivity|]. split; [reflexivity|]. split; [vm_compute; discriminate|].
    done.
Defined.

(** ** Queue operations on the store *)

(** C5 (as amended): [updateQueueItem] never fails. For an id absent from
    the store it is a silent no-op - no NotFoundError, store unchanged;
    for an id present, when its two storage requests succeed, the stored
    item becomes [Object.assign(item, updates)] and no other record
    changes; a failing first request leaves the store as it was. *)
Theorem updateQueueItem_merges_or_skips (env : Env) (itemId : string)
    (updates : Updates) (w : World) :
  (updateQueueItem env itemId updates w).1 = Resolved () ∧
  (db w !! itemId = None →
     db (updateQueueItem env itemId updates w).2 = db w) ∧
  (∀ item, db w !! itemId = Some item →
     fault env (requests w) = false → fault env (S (requests w)) = false →
     db (updateQueueItem env itemId updates w).2
       = <[id item := Object_assign item updates]> (db w)) ∧
  (fault env (requests w) = true →
     db (updateQueueItem env itemId updates w).2 = db w).
Proof.
  split; [apply updateQueueItem_resolves|].
  split; [|split].
  - intros Hnone. crush_store.
  - intros item Hsome F1 F2. crush_store.
  - intros F1. crush_store.
Qed.

Lemma updateQueueItem_merges_or_skips_witness :
  let env := serverSays None in
  let w := demoWorld [demoItem "a" 0] in
  let u := {| u_attempts := Some 1; u_status := None; u_syncedAt := None;
              u_lastError := None; u_lastAttempt := None |} in
  db (updateQueueItem env "ghost" u w).2 = db w ∧
  db (updateQueueItem env "a" u w).2 = <["a" := demoItem "a" 1]> (db w).
Proof.
  intros env w u.
  destruct (updateQueueItem_merges_or_skips env "ghost" u w) as (_ & Habsent & _).
  destruct (updateQueueItem_merges_or_skips env "a" u w) as (_ & _ & Hpresent & _).
  split.
  - apply Habsent. reflexivity.
  - apply (Hpresent (demoItem "a" 0)); reflexivity.
Defined.

(** C5 as stated fails: an update of an id the store does not hold
    resolves like any other. *)
Lemma update_of_absent_id_resolves :
  let u := {| u_attempts := Some 1; u_status := None; u_syncedAt := None;
              u_lastError := None; u_lastAttempt := None |} in
  db (initial true) !! "ghost" = None ∧
  (updateQueueItem (serverSays None) "ghost" u (initial true)).1 = Resolved () ∧
  db (updateQueueItem (serverSays None) "ghost" u (initial true)).2 = db (initial true).
Proof. vm_compute. repeat split; reflexivity. Qed.

(** C6 (as amended): [addToQueue] always resolves with the id it assigned
    to the new item, which has status pending and zero attempts and is
    appended to the in-memory queue. Whenever the store accepts the item,
    that id was held by no stored record before the call - the id of a
    persisted item is unique in the store - and the store then holds the
    item under it. When the storage request fails, or the key is taken,
    the error is logged inside [saveQueueItem], nothing is stored, and the
    caller still gets the id. [w2] is the state in which [saveQueueItem]
    is called. *)
Theorem addToQueue_swallows_storage_error (env : Env) (d : Descriptor) (w : World) :
  ∃ item w2 w1,
    enqueue env d w = (Resolved item, w1) ∧
    (addToQueue env d w).1 = Resolved (id item) ∧
    status item = pending ∧ attempts item = 0 ∧
    syncQueue w1 = syncQueue w ++ [item] ∧
    db w2 = db w ∧ saveQueueItem env item w2 = (Resolved (), w1) ∧
    ((addItem env item w2).1 = Resolved () →
       db w !! id item = None ∧
       (keyed (db w) → ∀ k v, db w !! k = Some v → id v ≠ id item) ∧
       db w1 = <[id item := item]> (db w)) ∧
    (fault env (requests w) = false → db w !! id item = None →
       (addItem env item w2).1 = Resolved () ∧
       db w1 = <[id item := item]> (db w)) ∧
    (fault env (requests w) = true ∨ is_Some (db w !! id item) →
       (addItem env item w2).1 ≠ Resolved () ∧ db w1 = db w).
Proof.
  unfold addToQueue, enqueue. cbn.
  match goal with |- context [saveQueueItem env ?it ?x] =>
    set (item := it); set (w2 := x) end.
  assert (∀ i k v, keyed (db w) → db w !! i = None →
            db w !! k = Some v → id v ≠ i) as Huniq.
  { intros i k v Hk Hfree Hv Heq. rewrite <- Heq, (Hk _ _ Hv) in Hfree. congruence. }
  exists item, w2.
  unfold saveQueueItem, addItem, request. subst w2. cbn.
  destruct (fault env (requests w)) eqn:F; cbn.
  - eexists. split; [reflexivity|]. repeat split; try done.
  - destruct (db w !! mkId env (dates w)) eqn:L; cbn.
    + eexists. split; [reflexivity|]. repeat split; try done.
    + eexists. split; [reflexivity|]. repeat split; try done; eauto.
      all: match goal with H : _ ∨ _ |- _ => destruct H as [?|[? Hs]]; done end.
Qed.

Lemma addToQueue_swallows_storage_error_witness :
  let env := serverSays None in
  let w := demoWorld [demoItem "a" 0] in
  ∃ item w2 w1,
    enqueue env demoDescriptor w = (Resolved item, w1) ∧
    (addToQueue env demoDescriptor w).1 = Resolved "k1" ∧
    (addItem env item w2).1 = Resolved () ∧
    db w !! id item = None ∧
    (∀ k v, db w !! k = Some v → id v ≠ id item) ∧
    db w1 = <[id item := item]> (db w).
Proof.
  intros env w.
  destruct (addToQueue_swallows_storage_error env demoDescriptor w)
    as (item & w2 & w1 & He & Hid & _ & _ & _ & _ & _ & Huniq & Hok & _).
  assert (id item = "k1") as Hk by (vm_compute in He; by simplify_eq).
  destruct Hok as [Hadd _]; [reflexivity | by rewrite Hk |].
  destruct (Huniq Hadd) as (Hfree & Hother & Hdb).
  exists item, w2, w1. rewrite Hk in Hid.
  repeat split; try done.
  apply Hother. intros k v Hv. apply keyed_demoWorld in Hv; done.
Defined.

(** C6 as stated fails: with the storage request failing, [addToQueue]
    still resolves with the id, and the store holds nothing. *)
Lemma storage_error_not_propagated :
  fault storageDown 0 = true ∧
  (addToQueue storageDown demoDescriptor (initial false)).1 = Resolved "k1" ∧
  db (addToQueue storageDown demoDescriptor (initial false)).2 = ∅.
Proof. vm_compute. repeat split; reflexivity. Qed.

(** ** Fetch strategies *)

Section StrategyFacts.
Context (io : Net).

Lemma caches_open_match name name' req sw :
  cache_match name' req (caches_open name sw).2 = cache_match name' req sw.
Proof.
  unfold caches_open, cache_match.
  destruct (caches sw !! name) eqn:E; [done|]. cbn.
  rewrite lookup_insert. case_decide; [subst; by rewrite E | done].
Qed.

Lemma caches_open_fetched name sw :
  fetched (caches_open name sw).2 = fetched sw.
Proof. unfold caches_open. by destruct (caches sw !! name). Qed.

Lemma caches_open_hit name req sw resp :
  cache_match name req sw = Some resp → (caches_open name sw).2 = sw.
Proof.
  unfold cache_match, caches_open.
  destruct (caches sw !! name); [done | by cbn].
Qed.

End StrategyFacts.

(** C8: a cache-first strategy whose partition holds an entry for the
    request answers with that entry and hands nothing to [fetch]; it leaves
    the worker's state as it was. *)
Theorem cache_first_hit_skips_network (io : Net) (req : Request) (sw : Worker)
    (resp : Response) :
  (cache_match IMAGE_CACHE req sw = Some resp →
     imageStrategy io req sw = (Resolved resp, sw) ∧
     fetched (imageStrategy io req sw).2 = fetched sw) ∧
  (cache_match CACHE_NAME req sw = Some resp →
     staticStrategy io req sw = (Resolved resp, sw) ∧
     fetched (staticStrategy io req sw).2 = fetched sw).
Proof.
  split; intros Hhit.
  - unfold imageStrategy.
    pose proof (caches_open_hit IMAGE_CACHE req sw resp Hhit) as Ho.
    destruct (caches_open IMAGE_CACHE sw) as [c sw0]. cbn in Ho. subst sw0.
    by rewrite Hhit.
  - unfold staticStrategy.
    pose proof (caches_open_hit CACHE_NAME req sw resp Hhit) as Ho.
    destruct (caches_open CACHE_NAME sw) as [c sw0]. cbn in Ho. subst sw0.
    by rewrite Hhit.
Qed.

Lemma api_offline_branch (io : Net) (req : Request) (sw : Worker) :
  net io (length (fetched sw)) req = None →
  cache_match API_CACHE req sw = None →
  ∃ sw', apiStrategy io req sw =
           (Resolved (offlinePayload (isoDate io (swDates sw'))),
            {| caches := caches sw'; fetched := fetched sw'; swDates := S (swDates sw') |})
         ∧ (apiFirstStrategy io req sw = (Resolved offlineFallback, sw')).
Proof.
  intros Hnet Hmiss. unfold apiStrategy, apiFirstStrategy.
  pose proof (caches_open_match API_CACHE API_CACHE req sw) as Hm.
  pose proof (caches_open_fetched API_CACHE sw) as Hf.
  destruct (caches_open API_CACHE sw) as [c sw0]. cbn in Hm, Hf.
  unfold fetch. rewrite Hf, Hnet.
  unfold cache_match in *. cbn. rewrite Hm, Hmiss.
  exists {| caches := caches sw0; fetched := fetched sw ++ [req];
            swDates := swDates sw0 |}.
  split; reflexivity.
Qed.

Lemma cache_first_hit_skips_network_witness :
  let req := demoRequest "/css/style.css" in
  let resp := demoResponse "body{}" in
  (imageStrategy offlineNet req warmWorker = (Resolved resp, warmWorker) ∧
   fetched (imageStrategy offlineNet req warmWorker).2 = fetched warmWorker) ∧
  (staticStrategy offlineNet req warmWorker = (Resolved resp, warmWorker) ∧
   fetched (staticStrategy offlineNet req warmWorker).2 = fetched warmWorker).
Proof.
  intros req resp.
  destruct (cache_first_hit_skips_network offlineNet req warmWorker resp)
    as [Himage Hstatic].
  split; [apply Himage | apply Hstatic]; reflexivity.
Defined.

(** C9: when the network fetch fails and the API partition has no entry
    for the request, both API strategies resolve - they do not throw -
    with a synthesized response whose body is [JSON.stringify] of an
    object with [status: 'offline'] as its first property, and whose
    headers hold [X-Offline: true]. *)
Theorem api_offline_payload (io : Net) (req : Request) (sw : Worker) :
  net io (length (fetched sw)) req = None →
  cache_match API_CACHE req sw = None →
  (∃ resp sw', apiStrategy io req sw = (Resolved resp, sw') ∧
     (∃ o, r_body resp = Json.stringify (("status", "offline") :: o)) ∧
     JsString.includes (Json.member ("status", "offline")) (r_body resp) = true ∧
     Headers_get "X-Offline" (r_headers resp) = Some "true") ∧
  (∃ resp sw', apiFirstStrategy io req sw = (Resolved resp, sw') ∧
     (∃ o, r_body resp = Json.stringify (("status", "offline") :: o)) ∧
     JsString.includes (Json.member ("status", "offline")) (r_body resp) = true ∧
     Headers_get "X-Offline" (r_headers resp) = Some "true").
Proof.
  intros Hnet Hmiss.
  destruct (api_offline_branch io req sw Hnet Hmiss) as (sw1 & -> & ->).
  split; do 2 eexists; (split; [reflexivity|]);
    (split; [eexists; reflexivity|]); split; reflexivity.
Qed.

(** C10: the synthesized offline response of either API strategy is built
    without a [status], so it carries 200, the status of a successful
    answer; what tells it apart is the [X-Offline] header and the body's
    [status] property. *)
Theorem api_offline_payload_status_200 (io : Net) (req : Request) (sw : Worker) :
  net io (length (fetched sw)) req = None →
  cache_match API_CACHE req sw = None →
  (∃ resp sw', apiStrategy io req sw = (Resolved resp, sw') ∧
     r_status resp = 200 ∧ Headers_get "X-Offline" (r_headers resp) = Some "true") ∧
  (∃ resp sw', apiFirstStrategy io req sw = (Resolved resp, sw') ∧
     r_status resp = 200 ∧ Headers_get "X-Offline" (r_headers resp) = Some "true").
Proof.
  intros Hnet Hmiss.
  destruct (api_offline_branch io req sw Hnet Hmiss) as (sw1 & -> & ->).
  split; do 2 eexists; (split; [reflexivity|]); split; reflexivity.
Qed.

Lemma api_offline_payload_witness :
  let req := demoRequest "/api/prices" in
  (∃ resp sw', apiStrategy offlineNet req emptyWorker = (Resolved resp, sw') ∧
     (∃ o, r_body resp = Json.stringify (("status", "offline") :: o)) ∧
     JsString.includes (Json.member ("status", "offline")) (r_body resp) = true ∧
     Headers_get "X-Offline" (r_headers resp) = Some "true") ∧
  (∃ resp sw', apiFirstStrategy offlineNet req emptyWorker = (Resolved resp, sw') ∧
     (∃ o, r_body resp = Json.stringify (("status", "offline") :: o)) ∧
     JsString.includes (Json.member ("status", "offline")) (r_body resp) = true ∧
     Headers_get "X-Offline" (r_headers resp) = Some "true").
Proof.
  intros req.
  apply (api_offline_payload offlineNet req emptyWorker); reflexivity.
Defined.

Lemma api_offline_payload_status_200_witness :
  let req := demoRequest "/api/prices" in
  (∃ resp sw', apiStrategy offlineNet req emptyWorker = (Resolved resp, sw') ∧
     r_status resp = 200 ∧ Headers_get "X-Offline" (r_headers resp) = Some "true") ∧
  (∃ resp sw', apiFirstStrategy offlineNet req emptyWorker = (Resolved resp, sw') ∧
     r_status resp = 200 ∧ Headers_get "X-Offline" (r_headers resp) = Some "true").
Proof.
  intros req.
  apply (api_offline_payload_status_200 offlineNet req emptyWorker); reflexivity.
Defined.

(** * Further properties *)

(** ** Removing and loading *)

Ltac unfold_more :=
  unfold removeFromQueue, loadQueue, deleteItem, getAllItems_status, getAllItems,
    getSetting_lastSync in *.

Section RemoveLoadFacts.
Context (env : Env).

Lemma sortByKey_perm l : sortByKey l ≡ₚ l.
Proof.
  induction l as [|x l IH]; [done|]. cbn.
  assert (∀ l', insertByKey x l' ≡ₚ x :: l') as Hins.
  { induction l' as [|y l' IH']; [done|]. cbn.
    destruct (String.leb (id x) (id y)); [done|].
    rewrite IH'. apply perm_swap. }
  by rewrite Hins, IH.
Qed.

Lemma stored_values (d : gmap string QueueItem) item :
  keyed d →
  item ∈ (map_to_list d).*2 ↔ d !! id item = Some item.
Proof.
  intros Hk. rewrite list_elem_of_fmap. split.
  - intros ([k v] & -> & Hin). apply elem_of_map_to_list in Hin.
    cbn. by rewrite (Hk _ _ Hin).
  - intros H. exists (id item, item). split; [done|]. by apply elem_of_map_to_list.
Qed.

Lemma stored_ids (d : gmap string QueueItem) :
  keyed d → id <$> (map_to_list d).*2 = (map_to_list d).*1.
Proof.
  intros Hk. rewrite <- list_fmap_compose. apply list_fmap_ext.
  intros i [k v] Hi. cbn. apply Hk. apply elem_of_map_to_list.
  apply list_elem_of_lookup. eauto.
Qed.

Lemma stored_ids_NoDup (d : gmap string QueueItem) (P : QueueItem → Prop)
    `{∀ x, Decision (P x)} :
  keyed d → NoDup (id <$> sortByKey (filter P (map_to_list d).*2)).
Proof.
  intros Hk. rewrite sortByKey_perm.
  eapply sublist_NoDup; [|apply fmap_sublist, sublist_filter].
  rewrite stored_ids by done. apply NoDup_fst_map_to_list.
Qed.

End RemoveLoadFacts.

(** X1: [removeFromQueue] always resolves, whether or not storage works.
    When its storage request fails, store and queue are left as they
    were. When it succeeds, the id is gone from the store and from the
    queue and nothing else changes, and a second removal of the same id
    then changes neither the store nor the queue, whether or not its own
    request succeeds. *)
Theorem removeFromQueue_idempotent (env : Env) (itemId : string) (w : World) :
  let r1 := removeFromQueue env itemId w in
  let r2 := removeFromQueue env itemId r1.2 in
  (r1.1 = Resolved () ∧ r2.1 = Resolved ()) ∧
  (fault env (requests w) = true →
     db r1.2 = db w ∧ syncQueue r1.2 = syncQueue w) ∧
  (fault env (requests w) = false →
     db r1.2 !! itemId = None ∧
     (∀ item, item ∈ syncQueue r1.2 ↔ item ∈ syncQueue w ∧ id item ≠ itemId) ∧
     (∀ k, k ≠ itemId → db r1.2 !! k = db w !! k) ∧
     db r2.2 = db r1.2 ∧ syncQueue r2.2 = syncQueue r1.2).
Proof.
  unfold_more. unfold request. cbn.
  destruct (fault env (requests w)) eqn:F1; cbn.
  - split; [|split; [done|intros; done]].
    split; [done|]. by destruct (fault env (S (requests w))).
  - split; [|split; [intros; done|intros _]].
    { split; [done|]. by destruct (fault env (S (requests w))). }
    split; [apply lookup_delete_eq|].
    split; [intros item; rewrite list_elem_of_filter; tauto|].
    split; [intros k Hk; by apply lookup_delete_ne|].
    destruct (fault env (S (requests w))); cbn; [done|].
    split; [apply delete_id, lookup_delete_eq|].
    by apply list_filter_filter_l.
Qed.

Lemma removeFromQueue_idempotent_witness :
  let w := demoWorld [demoItem "a" 0; demoItem "b" 1] in
  let r1 := removeFromQueue (serverSays None) "a" w in
  let r2 := removeFromQueue (serverSays None) "a" r1.2 in
  (r1.1 = Resolved () ∧ r2.1 = Resolved ()) ∧
  db r1.2 !! "a" = None ∧
  (∀ item, item ∈ syncQueue r1.2 ↔ item ∈ syncQueue w ∧ id item ≠ "a") ∧
  (∀ k, k ≠ "a" → db r1.2 !! k = db w !! k) ∧
  db r2.2 = db r1.2 ∧ syncQueue r2.2 = syncQueue r1.2.
Proof.
  intros w.
  destruct (removeFromQueue_idempotent (serverSays None) "a" w) as (H & _ & Hok).
  split; [exact H|]. apply Hok. reflexivity.
Defined.

(** X2: when its storage request succeeds, [loadQueue] replaces the
    in-memory queue by exactly the stored records whose status is pending,
    each once, so ids are unique in the loaded queue; the store is not
    changed. When the request fails the queue is left as it was. *)
Theorem loadQueue_pending_records (env : Env) (w : World) :
  keyed (db w) →
  (fault env (requests w) = false →
     (∀ item, item ∈ syncQueue (loadQueue env w) ↔
                db w !! id item = Some item ∧ status item = pending) ∧
     NoDup (id <$> syncQueue (loadQueue env w))) ∧
  (fault env (requests w) = true →
     syncQueue (loadQueue env w) = syncQueue w) ∧
  db (loadQueue env w) = db w.
Proof.
  intros Hk. unfold_more. unfold request. cbn.
  destruct (fault env (requests w)); cbn.
  - split; [done|]. split; done.
  - split; [|split; done]. intros _. split.
    + intros item. rewrite sortByKey_perm, list_elem_of_filter, stored_values by done.
      tauto.
    + by apply stored_ids_NoDup.
Qed.

Lemma loadQueue_pending_records_witness :
  let env := serverSays None in
  let w := with_syncQueue [] (demoWorld [demoItem "a" 0; demoItem "b" 1]) in
  (fault env (requests w) = false →
     (∀ item, item ∈ syncQueue (loadQueue env w) ↔
                db w !! id item = Some item ∧ status item = pending) ∧
     NoDup (id <$> syncQueue (loadQueue env w))) ∧
  (fault env (requests w) = true →
     syncQueue (loadQueue env w) = syncQueue w) ∧
  db (loadQueue env w) = db w.
Proof.
  intros env w. apply (loadQueue_pending_records env w). apply keyed_demoWorld.
Defined.

(** ** Cleaning up, statistics, batches and the periodic check *)

Section CleanupFacts.
Context (env : Env).

Lemma isOld_true cutoff v :
  isOld cutoff v = true ↔ timestamp v < cutoff ∧ status v = synced.
Proof.
  unfold isOld. rewrite andb_true_iff, Nat.ltb_lt, bool_decide_eq_true. done.
Qed.

Lemma deleteAll_frame l w :
  syncQueue (deleteAll env l w).2 = syncQueue w.
Proof.
  revert w. induction l as [|x l IH]; intros w; [done|].
  cbn [deleteAll]. unfold deleteAll, deleteItem, request in *. cbn.
  destruct (fault env (requests w)); [done|]. by rewrite IH.
Qed.

(** Whatever fails, a run of deletes removes only records it was given
    and rewrites none. *)
Lemma deleteAll_sub l w k :
  db (deleteAll env l w).2 !! k = db w !! k ∨
  (db (deleteAll env l w).2 !! k = None ∧ k ∈ id <$> l).
Proof.
  revert w. induction l as [|x l IH]; intros w; [by left|].
  cbn [deleteAll]. unfold deleteItem, request. cbn.
  destruct (fault env (requests w)); [by left|].
  destruct (IH (with_db (delete (id x) (db w)) (with_requests (S (requests w)) w)))
    as [E | [E Hin]].
  - rewrite E. cbn. destruct (decide (k = id x)) as [->|Hne].
    + right. rewrite lookup_delete_eq. split; [done | left].
    + left. by rewrite lookup_delete_ne.
  - right. split; [done | by right].
Qed.

(** With storage working every given record is removed. *)
Lemma deleteAll_all l w k :
  (∀ n, fault env n = false) →
  (deleteAll env l w).1 = Resolved () ∧
  (k ∈ id <$> l → db (deleteAll env l w).2 !! k = None).
Proof.
  intros Hf. revert w. induction l as [|x l IH]; intros w.
  { split; [done|]. intros H. by apply elem_of_nil in H. }
  cbn [deleteAll]. unfold deleteItem, request. cbn. rewrite Hf.
  destruct (IH (with_db (delete (id x) (db w)) (with_requests (S (requests w)) w)))
    as [E1 E2].
  split; [done|]. intros Hin.
  destruct (decide (k ∈ id <$> l)) as [Hl|Hl]; [by apply E2|].
  apply elem_of_cons in Hin as [->|Hin]; [|done].
  destruct (deleteAll_sub l
    (with_db (delete (id x) (db w)) (with_requests (S (requests w)) w)) (id x))
    as [E | [E _]]; [|done].
  rewrite E. cbn. apply lookup_delete_eq.
Qed.

End CleanupFacts.

(** X3: [cleanupOldRecords] deletes nothing but synced records older than
    the cutoff: a record that is not synced, or not older, is still in the
    store unchanged afterwards, whatever storage request fails, and the
    in-memory queue is not touched. When no request fails every synced
    record older than the cutoff is gone and the count returned is their
    number. *)
Theorem cleanupOldRecords_only_old_synced (env : Env)
    (daysBefore : Time → nat → Time) (days : nat) (w : World) :
  keyed (db w) →
  let cutoff := daysBefore (clock env (dates w)) days in
  let r := cleanupOldRecords env daysBefore days w in
  (∀ k v, db w !! k = Some v → status v ≠ synced ∨ cutoff ≤ timestamp v →
          db r.2 !! k = Some v) ∧
  (∀ k v, db r.2 !! k = Some v → db w !! k = Some v) ∧
  syncQueue r.2 = syncQueue w ∧
  ((∀ n, fault env n = false) →
     (∀ k v, db w !! k = Some v → status v = synced → timestamp v < cutoff →
             db r.2 !! k = None) ∧
     r.1 = (length (filter (λ v, isOld cutoff v = true) (map_to_list (db w)).*2),
            None)).
Proof.
  intros Hk cutoff. unfold cleanupOldRecords, Date_now, getAllItems, request.
  cbn -[deleteAll]. fold cutoff.
  destruct (fault env (requests w)) eqn:F0; cbn -[deleteAll].
  { split; [done|]. split; [done|]. split; [done|]. intros Hf.
    rewrite Hf in F0. done. }
  set (old := filter (λ record, isOld cutoff record = true)
                (sortByKey (map_to_list (db w)).*2)).
  set (w1 := with_requests (S (requests w)) (with_dates (S (dates w)) w)).
  assert (∀ k, k ∈ id <$> old →
            ∃ v, db w !! k = Some v ∧ isOld cutoff v = true) as Hold.
  { intros k (v & -> & Hin)%list_elem_of_fmap.
    apply list_elem_of_filter in Hin as [Ho Hin].
    rewrite sortByKey_perm in Hin. apply stored_values in Hin; [|done]. eauto. }
  assert (∀ k, db (deleteAll env old w1).2 !! k = db w !! k ∨
               (db (deleteAll env old w1).2 !! k = None ∧ k ∈ id <$> old)) as Hsub.
  { intros k. apply (deleteAll_sub env old w1 k). }
  assert (syncQueue (deleteAll env old w1).2 = syncQueue w) as Hq.
  { apply (deleteAll_frame env old w1). }
  destruct (deleteAll env old w1) as [c w2] eqn:Ed. cbn in Hsub, Hq.
  assert ((match c with
           | Resolved _ => ((length old, @None StorageError), w2)
           | Rejected e => ((0, Some e), w2)
           end).2 = w2) as -> by (by destruct c).
  split; [|split; [|split; [done|]]].
  - intros k v Hv Hkeep. destruct (Hsub k) as [E | [_ Hin]]; [by rewrite E|].
    destruct (Hold k Hin) as (v' & Hv' & Ho). simplify_eq.
    apply isOld_true in Ho as [? ?]. destruct Hkeep; [done | lia].
  - intros k v Hv. destruct (Hsub k) as [E | [E _]]; congruence.
  - intros Hf. destruct (deleteAll_all env old w1 "" Hf) as [Hres _].
    rewrite Ed in Hres. cbn in Hres. subst c. split.
    + intros k v Hv Hs Ht.
      destruct (deleteAll_all env old w1 k Hf) as [_ Hnone].
      rewrite Ed in Hnone. apply Hnone.
      apply list_elem_of_fmap. exists v. split; [by rewrite (Hk _ _ Hv)|].
      apply list_elem_of_filter. split; [by apply isOld_true|].
      rewrite sortByKey_perm. apply stored_values; [done|].
      by rewrite (Hk _ _ Hv).
    + cbn. f_equal. subst old. by rewrite sortByKey_perm.
Qed.

Lemma cleanupOldRecords_only_old_synced_witness :
  let env := serverSays None in
  let daysBefore := λ (now : Time) (n : nat), now - n in
  let w := demoWorld [demoItem "a" 0; demoItem "b" 1] in
  let cutoff := daysBefore (clock env (dates w)) 7 in
  let r := cleanupOldRecords env daysBefore 7 w in
  (∀ k v, db w !! k = Some v → status v ≠ synced ∨ cutoff ≤ timestamp v →
          db r.2 !! k = Some v) ∧
  (∀ k v, db r.2 !! k = Some v → db w !! k = Some v) ∧
  syncQueue r.2 = syncQueue w ∧
  ((∀ n, fault env n = false) →
     (∀ k v, db w !! k = Some v → status v = synced → timestamp v < cutoff →
             db r.2 !! k = None) ∧
     r.1 = (length (filter (λ v, isOld cutoff v = true) (map_to_list (db w)).*2),
            None)).
Proof.
  intros env daysBefore w.
  apply (cleanupOldRecords_only_old_synced env daysBefore 7 w).
  apply keyed_demoWorld.
Defined.

Section StatsFacts.
Context (env : Env).

Lemma status_partition (l : list QueueItem) :
  length (filter (λ item, status item = pending) l)
  + length (filter (λ item, status item = synced) l)
  + length (filter (λ item, status item = failed) l) = length l.
Proof.
  induction l as [|x l IH]; [done|].
  rewrite !filter_cons. destruct (status x) eqn:E;
    repeat (case_decide; try congruence); cbn; lia.
Qed.

Lemma sortByKey_length l : length (sortByKey l) = length l.
Proof. by rewrite sortByKey_perm. Qed.

Lemma enqueue_resolves d w :
  ∃ item, (enqueue env d w).1 = Resolved item.
Proof.
  unfold enqueue, saveQueueItem, Date_now.
  match goal with |- context [addItem env ?i ?x] =>
    destruct (addItem env i x) as [[|] ?] end; eauto.
Qed.

Lemma addToQueue_resolves d w :
  ∃ i, (addToQueue env d w).1 = Resolved i.
Proof.
  unfold addToQueue. destruct (enqueue_resolves d w) as [item H].
  destruct (enqueue env d w) as [c w3]. cbn in H. subst c. eauto.
Qed.

Lemma batchLoop_counts items r w :
  let r' := (batchLoop env items r w).1 in
  b_successful r' = b_successful r + length items ∧
  b_failed r' = b_failed r ∧ b_errors r' = b_errors r ∧
  b_total r' = b_total r ∧ b_batchId r' = b_batchId r.
Proof.
  revert r w. induction items as [|d items IH]; intros r w.
  { cbn. repeat split; lia. }
  cbn [batchLoop]. destruct (addToQueue_resolves d w) as [i Hi].
  destruct (addToQueue env d w) as [c w1]. cbn in Hi. subst c.
  destruct (IH {| b_batchId := b_batchId r; b_total := b_total r;
                  b_successful := S (b_successful r); b_failed := b_failed r;
                  b_errors := b_errors r |} w1) as (H1 & H2 & H3 & H4 & H5).
  cbn in *. repeat split; try done. lia.
Qed.

End StatsFacts.

(** X4: when [getSyncStats] returns statistics, its three counts add up to
    [total], [total] is the number of records in the store, [lastSync] is
    the stored setting, and the store is as it was; when any of its four
    storage requests fails it returns [null] instead. *)
Theorem getSyncStats_counts_the_store (env : Env) (w : World) :
  (∀ st w', getSyncStats env w = (Some st, w') →
     st_total st = size (db w) ∧
     st_pending st + st_synced st + st_failed st = st_total st ∧
     st_pending st = length (filter (λ v, status v = pending) (map_to_list (db w)).*2) ∧
     st_lastSync st = lastSync w ∧ db w' = db w) ∧
  ((∃ n, n < 4 ∧ fault env (requests w + n) = true) →
     (getSyncStats env w).1 = None) ∧
  ((∀ n, n < 4 → fault env (requests w + n) = false) →
     ∃ st, (getSyncStats env w).1 = Some st).
Proof.
  unfold getSyncStats, getAllItems_status, getSetting_lastSync, request. cbn.
  destruct (fault env (requests w)) eqn:F0; cbn.
  { split; [done|]. split; [done|]. intros H. specialize (H 0).
    rewrite Nat.add_0_r in H. rewrite H in F0; [done | lia]. }
  destruct (fault env (S (requests w))) eqn:F1; cbn.
  { split; [done|]. split; [done|]. intros H. specialize (H 1).
    rewrite Nat.add_1_r in H. rewrite H in F1; [done | lia]. }
  destruct (fault env (S (S (requests w)))) eqn:F2; cbn.
  { split; [done|]. split; [done|]. intros H. specialize (H 2).
    replace (requests w + 2) with (S (S (requests w))) in H by lia.
    rewrite H in F2; [done | lia]. }
  destruct (fault env (S (S (S (requests w))))) eqn:F3; cbn.
  { split; [done|]. split; [done|]. intros H. specialize (H 3).
    replace (requests w + 3) with (S (S (S (requests w)))) in H by lia.
    rewrite H in F3; [done | lia]. }
  split; [|split; [|eauto]].
  - intros st w' Heq. simplify_eq. cbn. rewrite !sortByKey_length, status_partition.
    rewrite length_fmap, length_map_to_list. done.
  - intros (n & Hn & Hf).
    assert (n = 0 ∨ n = 1 ∨ n = 2 ∨ n = 3) as [-> | [-> | [-> | ->]]] by lia.
    + rewrite Nat.add_0_r in Hf. congruence.
    + rewrite Nat.add_1_r in Hf. congruence.
    + replace (requests w + 2) with (S (S (requests w))) in Hf by lia. congruence.
    + replace (requests w + 3) with (S (S (S (requests w)))) in Hf by lia. congruence.
Qed.

Lemma getSyncStats_counts_the_store_witness :
  let env := serverSays None in
  let w := demoWorld [demoItem "a" 0; demoItem "b" 1] in
  ∃ st, (getSyncStats env w).1 = Some st.
Proof.
  intros env w.
  destruct (getSyncStats_counts_the_store env w) as (_ & _ & H).
  apply H. reflexivity.
Defined.

(** X5: [batchSync] answers an empty array with the 'No items to sync'
    result and changes nothing. For a non-empty array it reports every
    item as successful - [successful] is the number of items, [failed] is
    zero and [errors] is empty - whatever the storage does, because
    [addToQueue] never rejects. *)
Theorem batchSync_reports_all_successful (env : Env) (items : list Descriptor)
    (w : World) :
  (items = [] → batchSync env items w = (NoItems, w)) ∧
  (items ≠ [] →
     ∃ r w', batchSync env items w = (Batch r, w') ∧
       b_total r = length items ∧ b_successful r = length items ∧
       b_failed r = 0 ∧ b_errors r = []).
Proof.
  split; [by intros ->|]. intros Hne.
  destruct items as [|d items]; [done|].
  unfold batchSync, Date_now.
  pose proof (batchLoop_counts env (d :: items)
    {| b_batchId := clock env (dates w); b_total := length (d :: items);
       b_successful := 0; b_failed := 0; b_errors := [] |}
    (with_dates (S (dates w)) w)) as H.
  destruct (batchLoop env (d :: items) _ _) as [r w2].
  cbn in H. destruct H as (H1 & H2 & H3 & H4 & _).
  do 2 eexists. split; [reflexivity|]. cbn. done.
Qed.

Lemma batchSync_reports_all_successful_witness :
  ∃ r w', batchSync storageDown [demoDescriptor; demoDescriptor] (initial true)
            = (Batch r, w') ∧
    b_total r = 2 ∧ b_successful r = 2 ∧ b_failed r = 0 ∧ b_errors r = [].
Proof.
  destruct (batchSync_reports_all_successful storageDown
              [demoDescriptor; demoDescriptor] (initial true)) as [_ H].
  apply H. done.
Defined.

(** X6: the periodic check behaves like a plain call of [processQueue]:
    with a non-empty queue it returns exactly what [processQueue] returns,
    online or not, and with an empty queue it starts no pass and leaves
    queue, store, flag, deliveries and timers as they were. The one-hour
    staleness test never changes what happens. *)
Theorem checkSyncNeeded_is_processQueue (env : Env) (lastSyncAttempt : option Time)
    (w : World) :
  (syncQueue w ≠ [] →
     checkSyncNeeded env lastSyncAttempt w = processQueue env w) ∧
  (syncQueue w = [] →
     let r := checkSyncNeeded env lastSyncAttempt w in
     r.1 = NoOp ∧ syncQueue r.2 = [] ∧ db r.2 = db w ∧
     syncInProgress r.2 = syncInProgress w ∧ sent r.2 = sent w ∧
     timers r.2 = timers w ∧ lastSync r.2 = lastSync w).
Proof.
  unfold checkSyncNeeded. split.
  - intros Hne. destruct (syncQueue w) as [|x q] eqn:Hq; [done|]. cbn -[staleAfter].
    destruct (onLine w) eqn:Ho; [done|].
    rewrite processQueue_noop; [done|].
    unfold guard. rewrite Ho. cbn. by rewrite orb_true_r.
  - intros Hq.
    assert (∀ w1, syncQueue w1 = [] → processQueue env w1 = (NoOp, w1)) as Hnoop.
    { intros w1 H1. apply processQueue_noop. unfold guard. rewrite H1. cbn.
      by rewrite orb_true_r. }
    rewrite Hq. change (0 <? length (@nil QueueItem)) with false. cbv iota.
    destruct (onLine w); [|cbn; by rewrite Hq].
    destruct lastSyncAttempt as [t|].
    + unfold Date_now. cbn -[staleAfter Nat.ltb processQueue].
      rewrite (Hnoop (with_dates (S (dates w)) w)) by done.
      destruct (staleAfter <? clock env (dates w) - t); cbn; by rewrite Hq.
    + rewrite Hnoop by done. cbn. by rewrite Hq.
Qed.

Lemma checkSyncNeeded_is_processQueue_witness :
  checkSyncNeeded (serverSays None) (Some 0) (demoWorld [demoItem "a" 0])
  = processQueue (serverSays None) (demoWorld [demoItem "a" 0]).
Proof.
  destruct (checkSyncNeeded_is_processQueue (serverSays None) (Some 0)
              (demoWorld [demoItem "a" 0])) as [H _].
  apply H. done.
Defined.

(** ** What every operation keeps *)

Section AdvanceFacts.
Context (env : Env).

Lemma advances_refl v : advances v v.
Proof. by repeat split. Qed.

Lemma advances_trans v1 v2 v3 : advances v1 v2 → advances v2 v3 → advances v1 v3.
Proof.
  intros (?&?&?&?&?&?&?&?) (?&?&?&?&?&?&?&?).
  repeat split; try congruence; auto.
Qed.

Lemma store_advances_refl d : store_advances d d.
Proof. intros k v H. exists v. split; [done | apply advances_refl]. Qed.

Lemma store_advances_trans d1 d2 d3 :
  store_advances d1 d2 → store_advances d2 d3 → store_advances d1 d3.
Proof.
  intros H12 H23 k v Hv. destruct (H12 k v Hv) as (v2 & Hv2 & A12).
  destruct (H23 k v2 Hv2) as (v3 & Hv3 & A23).
  exists v3. split; [done|]. by eapply advances_trans.
Qed.

(** The updates the code passes never set a status other than synced. *)
Lemma Object_assign_advances v u :
  u_status u = None ∨ u_status u = Some synced →
  advances v (Object_assign v u).
Proof.
  intros [E|E]; unfold advances; cbn; rewrite E; cbn; repeat split; done.
Qed.

Lemma put_fetched d i v v' :
  keyed d → d !! i = Some v → advances v v' →
  keyed (<[id v' := v']> d) ∧ store_advances d (<[id v' := v']> d).
Proof.
  intros Hk Hv A. split; [by apply keyed_insert|].
  intros k x Hx. rewrite lookup_insert. case_decide as Hd; [|eauto using advances_refl].
  exists v'. split; [done|].
  assert (id v' = i) as Hi by (destruct A as [-> _]; by apply Hk).
  assert (x = v) as -> by congruence. done.
Qed.

Lemma updateQueueItem_advances i u w :
  u_status u = None ∨ u_status u = Some synced →
  keyed (db w) →
  keyed (db (updateQueueItem env i u w).2) ∧
  store_advances (db w) (db (updateQueueItem env i u w).2).
Proof.
  intros Hu Hk. unfold updateQueueItem, getItem, updateItem, request. cbn.
  destruct (fault env (requests w)); cbn; [split; [done | apply store_advances_refl]|].
  destruct (db w !! i) as [v|] eqn:Hv; cbn; [|split; [done | apply store_advances_refl]].
  destruct (fault env (S (requests w))); cbn; [split; [done | apply store_advances_refl]|].
  exact (put_fetched (db w) i v (Object_assign v u) Hk Hv
           (Object_assign_advances v u Hu)).
Qed.

Lemma iteration_advances item p w :
  keyed (db w) →
  store_advances (db w) (db (iteration env item p w).1.2).
Proof.
  intros Hk. unfold iteration.
  destruct (maxRetries <=? attempts item); [apply store_advances_refl|].
  match goal with |- context [updateQueueItem env ?i ?u w] =>
    destruct (updateQueueItem_advances i u w) as [K1 A1]; [by left | done |];
    destruct (updateQueueItem env i u w) as [c1 w1] end.
  cbn in K1, A1. unfold sendToServer, Date_now.
  destruct (send env (length (sent w1)) (bumped item)); cbn;
    match goal with |- context [updateQueueItem env ?i ?u ?x] =>
      destruct (updateQueueItem_advances i u x) as [K2 A2];
        [(by left) || (by right) | done |];
      destruct (updateQueueItem env i u x) as [c2 w2] end;
    cbn in *; by eapply store_advances_trans.
Qed.

Lemma forOf_advances items p w :
  keyed (db w) →
  store_advances (db w) (db (forOf env items p w).1.2).
Proof.
  revert p w. induction items as [|item rest IH]; intros p w Hk.
  { apply store_advances_refl. }
  rewrite forOf_cons.
  pose proof (iteration_advances item p w Hk) as A.
  pose proof (iteration_keyed env item p w Hk) as K.
  destruct (iteration env item p w) as [[[item1 p1] w1] brk]. cbn in A, K.
  destruct brk; [exact A|].
  specialize (IH p1 w1 K).
  destruct (forOf env rest p1 w1) as [[[rest1 p2] w2] brk2]. cbn in *.
  by eapply store_advances_trans.
Qed.

Lemma processQueue_db w :
  keyed (db w) →
  keyed (db (processQueue env w).2) ∧
  store_advances (db w) (db (processQueue env w).2).
Proof.
  intros Hk. destruct (guard w) eqn:Hg.
  { rewrite processQueue_noop by done. split; [done | apply store_advances_refl]. }
  rewrite processQueue_ran by done. cbn -[epilogue].
  match goal with |- context [epilogue env ?p ?x] =>
    destruct (epilogue_fields env p x) as (_ & _ & _ & -> & _) end.
  cbn. split.
  - by apply (forOf_keyed env (syncQueue w) emptyPass (with_syncInProgress true w)).
  - by apply (forOf_advances (syncQueue w) emptyPass (with_syncInProgress true w)).
Qed.

Lemma enqueue_db d w :
  keyed (db w) →
  keyed (db (enqueue env d w).2) ∧ store_advances (db w) (db (enqueue env d w).2).
Proof.
  intros Hk. unfold enqueue, saveQueueItem, addItem, request, Date_now. cbn.
  destruct (fault env (requests w)); cbn; [split; [done | apply store_advances_refl]|].
  match goal with |- context [db w !! ?i] => destruct (db w !! i) eqn:Hv end; cbn;
    [split; [done | apply store_advances_refl]|].
  split.
  - match goal with |- keyed (<[?i := ?x]> _) => change i with (id x) end.
    by apply keyed_insert.
  - intros k v Hkv. exists v. split; [|apply advances_refl].
    rewrite lookup_insert_ne; [done|]. intros <-. congruence.
Qed.

Lemma addToQueue_db d w :
  keyed (db w) →
  keyed (db (addToQueue env d w).2) ∧ store_advances (db w) (db (addToQueue env d w).2).
Proof.
  intros Hk. unfold addToQueue. destruct (enqueue_db d w Hk) as [K A].
  destruct (enqueue env d w) as [[item|e] w3]; cbn in K, A; [|done].
  destruct (onLine w3); cbn; [|done].
  destruct (processQueue_db w3 K) as [K2 A2].
  split; [done | by eapply store_advances_trans].
Qed.

Lemma markAsSynced_db i w :
  keyed (db w) →
  keyed (db (markAsSynced env i w).2) ∧ store_advances (db w) (db (markAsSynced env i w).2).
Proof.
  intros Hk. unfold markAsSynced, getItem, updateItem, request, Date_now. cbn.
  destruct (fault env (requests w)); cbn; [split; [done | apply store_advances_refl]|].
  destruct (db w !! i) as [v|] eqn:Hv; cbn; [|split; [done | apply store_advances_refl]].
  destruct (fault env (S (requests w))); cbn; [split; [done | apply store_advances_refl]|].
  match goal with |- context [Object_assign v ?u] =>
    exact (put_fetched (db w) i v (Object_assign v u) Hk Hv
             (Object_assign_advances v u (or_intror eq_refl))) end.
Qed.

Lemma updateRetryCount_db i w :
  keyed (db w) →
  keyed (db (updateRetryCount env i w).2) ∧
  store_advances (db w) (db (updateRetryCount env i w).2).
Proof.
  intros Hk. unfold updateRetryCount, getItem, updateItem, request, Date_now. cbn.
  destruct (fault env (requests w)); cbn; [split; [done | apply store_advances_refl]|].
  destruct (db w !! i) as [v|] eqn:Hv; cbn; [|split; [done | apply store_advances_refl]].
  destruct (fault env (S (requests w))); cbn; [split; [done | apply store_advances_refl]|].
  match goal with |- context [Object_assign v ?u] =>
    exact (put_fetched (db w) i v (Object_assign v u) Hk Hv
             (Object_assign_advances v u (or_introl eq_refl))) end.
Qed.

Lemma bgTry_db item w :
  keyed (db w) →
  keyed (db (bgTry env item w).2) ∧ store_advances (db w) (db (bgTry env item w).2).
Proof.
  intros Hk. unfold bgTry, bgSend.
  destruct (syncToServer env (length (bgSent w)) item);
    [|split; [done | apply store_advances_refl]].
  destruct (markAsSynced_db (id item) (with_bgSent (bgSent w ++ [item]) w) Hk) as [K A].
  by destruct (markAsSynced env (id item) _) as [[|] ?].
Qed.

Lemma bgLoop_db items w :
  keyed (db w) →
  keyed (db (bgLoop env items w).2) ∧ store_advances (db w) (db (bgLoop env items w).2).
Proof.
  revert w. induction items as [|item rest IH]; intros w Hk.
  { split; [done | apply store_advances_refl]. }
  cbn [bgLoop]. destruct (bgTry_db item w Hk) as [K A].
  destruct (bgTry env item w) as [[|] w2]; cbn in K, A.
  - destruct (IH w2 K). split; [done | by eapply store_advances_trans].
  - destruct (updateRetryCount_db (id item) w2 K) as [K2 A2].
    destruct (updateRetryCount env (id item) w2) as [[|e] w3]; cbn in K2, A2 |- *.
    + destruct (IH w3 K2). split; [done|].
      eapply store_advances_trans; [done|]. by eapply store_advances_trans.
    + split; [done | by eapply store_advances_trans].
Qed.

Lemma syncPendingData_db w :
  keyed (db w) →
  keyed (db (syncPendingData env w)) ∧
  store_advances (db w) (db (syncPendingData env w)).
Proof.
  intros Hk. unfold syncPendingData, getPendingSyncItems, request. cbn.
  destruct (fault env (requests w)); cbn; [split; [done | apply store_advances_refl]|].
  destruct (fault env (S (requests w))); cbn; [split; [done | apply store_advances_refl]|].
  match goal with |- context [bgLoop env ?l ?x] => exact (bgLoop_db l x Hk) end.
Qed.

Lemma apply_db w op :
  keyed (db w) →
  keyed (db (apply env w op)) ∧ store_advances (db w) (db (apply env w op)).
Proof.
  intros Hk. destruct op as [d| | |b|]; cbn [apply].
  - by apply addToQueue_db.
  - by apply processQueue_db.
  - by apply syncPendingData_db.
  - destruct b; [|split; [done | apply store_advances_refl]].
    by apply (processQueue_db (with_onLine true w)).
  - destruct (timers w); [split; [done | apply store_advances_refl]|].
    unfold retryCallback. destruct (_ && _); [|split; [done | apply store_advances_refl]].
    by apply (processQueue_db (with_timers (tail _) w)).
Qed.

End AdvanceFacts.

Section TransactionFacts.
Context (env : Env) (d0 : gmap string QueueItem).

Lemma keepsIdentity_assign v0 item u :
  keepsIdentity v0 item → u_status u ≠ Some failed →
  keepsIdentity v0 (Object_assign item u).
Proof.
  intros (?&?&?&?&?&?&Hf) Hu. repeat split; cbn; try done.
  destruct (u_status u) as [st|] eqn:E; cbn; [|exact Hf].
  intros ->. done.
Qed.

Lemma identity_put (d : gmap string QueueItem) x :
  (∀ k v v0, d !! k = Some v → d0 !! k = Some v0 → keepsIdentity v0 v) →
  (∀ v0, d0 !! id x = Some v0 → keepsIdentity v0 x) →
  ∀ k v v0, <[id x := x]> d !! k = Some v → d0 !! k = Some v0 → keepsIdentity v0 v.
Proof.
  intros Hd Hx k v v0. rewrite lookup_insert. case_decide.
  - intros ? ?. simplify_eq. by apply Hx.
  - apply Hd.
Qed.

(** One transaction keeps the store keyed, keeps the identity of every
    record of [d0] that is stored, and keeps it in every record held. *)
Lemma transaction_identity s t :
  issued d0 t →
  keyed (db (page s)) →
  (∀ k v v0, db (page s) !! k = Some v → d0 !! k = Some v0 → keepsIdentity v0 v) →
  (∀ h v0, h ∈ held s → d0 !! id h = Some v0 → keepsIdentity v0 h) →
  let s' := transaction env s t in
  keyed (db (page s')) ∧
  (∀ k v v0, db (page s') !! k = Some v → d0 !! k = Some v0 → keepsIdentity v0 v) ∧
  (∀ h v0, h ∈ held s' → d0 !! id h = Some v0 → keepsIdentity v0 h).
Proof.
  intros Ht Hk Hd Hh.
  assert (∀ item u, (∀ v0, d0 !! id item = Some v0 → keepsIdentity v0 item) →
            u_status u ≠ Some failed →
            keyed (<[id item := Object_assign item u]> (db (page s))) ∧
            (∀ k v v0, <[id item := Object_assign item u]> (db (page s)) !! k = Some v →
               d0 !! k = Some v0 → keepsIdentity v0 v)) as Hput.
  { intros item u Hi Hu. split.
    - apply (keyed_insert _ (Object_assign item u) Hk).
    - apply (identity_put _ (Object_assign item u) Hd).
      intros v0 Hv0. apply keepsIdentity_assign; [by apply Hi | done]. }
  assert (∀ i item, db (page s) !! i = Some item →
            ∀ v0, d0 !! id item = Some v0 → keepsIdentity v0 item) as Hstored.
  { intros i item Hi v0 Hv0. apply (Hd i); [done|]. by rewrite <- (Hk _ _ Hi). }
  destruct t as [item|i|n u|i|i|i]; cbn [transaction issued] in *.
  - unfold saveQueueItem, addItem, request. cbn.
    destruct (fault env (requests (page s))); cbn; [done|].
    destruct (db (page s) !! id item) eqn:L; cbn; [done|].
    split; [by apply keyed_insert|]. split; [|done].
    apply identity_put; [done|]. intros v0 Hv0. congruence.
  - unfold updateQueueItem_read, getItem, request. cbn.
    destruct (fault env (requests (page s))); cbn; [done|].
    destruct (db (page s) !! i) as [item|] eqn:L; cbn; [|done].
    split; [done|]. split; [done|].
    intros h v0 [Hin|Hin%list_elem_of_singleton]%elem_of_app; [by apply Hh|].
    subst h. by apply (Hstored i).
  - unfold updateQueueItem_write.
    destruct (held s !! n) as [item|] eqn:L; [|done].
    unfold updateItem, request. cbn.
    destruct (fault env (requests (page s))); cbn; [done|].
    destruct (Hput item u) as [K I]; [|done|done].
    intros v0. apply Hh. by eapply list_elem_of_lookup_2.
  - unfold markAsSynced, getItem, updateItem, Date_now, request. cbn.
    destruct (fault env (requests (page s))); cbn; [done|].
    destruct (db (page s) !! i) as [item|] eqn:L; cbn; [|done].
    destruct (fault env (S (requests (page s)))); cbn; [done|].
    match goal with |- context [Object_assign item ?u] =>
      destruct (Hput item u) as [K I]; [by apply (Hstored i) | done | done] end.
  - unfold updateRetryCount, getItem, updateItem, Date_now, request. cbn.
    destruct (fault env (requests (page s))); cbn; [done|].
    destruct (db (page s) !! i) as [item|] eqn:L; cbn; [|done].
    destruct (fault env (S (requests (page s)))); cbn; [done|].
    match goal with |- context [Object_assign item ?u] =>
      destruct (Hput item u) as [K I]; [by apply (Hstored i) | done | done] end.
  - unfold deleteItem, request. cbn.
    destruct (fault env (requests (page s))); cbn; [done|].
    split; [|split; [|done]].
    + intros k v Hv. apply lookup_delete_Some in Hv as [_ Hv]. by apply Hk.
    + intros k v v0 Hv. apply lookup_delete_Some in Hv as [_ Hv]. by apply (Hd k).
Qed.

Lemma transact_identity txs s :
  Forall (issued d0) txs →
  keyed (db (page s)) →
  (∀ k v v0, db (page s) !! k = Some v → d0 !! k = Some v0 → keepsIdentity v0 v) →
  (∀ h v0, h ∈ held s → d0 !! id h = Some v0 → keepsIdentity v0 h) →
  let s' := transact env txs s in
  keyed (db (page s')) ∧
  (∀ k v v0, db (page s') !! k = Some v → d0 !! k = Some v0 → keepsIdentity v0 v).
Proof.
  intros Hall. revert s. induction Hall as [|t txs Ht Hall IH]; intros s Hk Hd Hh.
  { by split. }
  destruct (transaction_identity s t Ht Hk Hd Hh) as (K & D & H).
  exact (IH _ K D H).
Qed.

Lemma updateQueueItem_transactions i u w :
  (updateQueueItem env i u w).2
  = page (transact env [TxRead i; TxWrite 0 u] {| page := w; held := [] |}).
Proof.
  unfold updateQueueItem, transact. cbn [foldl transaction].
  unfold updateQueueItem_read. cbn [page held].
  destruct (getItem env i w) as [[[item|]|e] w1];
    unfold updateQueueItem_write; cbn; [|done..].
  by destruct (fault env (requests w1)).
Qed.

End TransactionFacts.

(** X7: under any interleaving of the store transactions of the page and
    the worker - the add of [saveQueueItem], the read and the later write
    of calls of [updateQueueItem] with whatever lands in between, the
    worker's [markAsSynced] and [updateRetryCount], and deletes - with any
    of them failing, a record that is stored under an id keeps the id,
    type, action, data, collection and timestamp the record under that id
    had at the start, is never given the status failed, and sits under
    its own id, provided new items come with ids the store did not hold
    and no caller passes the status failed. A call of [updateQueueItem]
    is its read followed by its write. *)
Theorem stored_records_keep_identity (env : Env) (txs : list Tx) (w : World) :
  keyed (db w) →
  Forall (issued (db w)) txs →
  let s := transact env txs {| page := w; held := [] |} in
  keyed (db (page s)) ∧
  (∀ k v v', db w !! k = Some v → db (page s) !! k = Some v' → keepsIdentity v v') ∧
  (∀ i u w0, (updateQueueItem env i u w0).2
             = page (transact env [TxRead i; TxWrite 0 u] {| page := w0; held := [] |})).
Proof.
  intros Hk Hall s.
  destruct (transact_identity env (db w) txs {| page := w; held := [] |} Hall Hk)
    as [K D].
  - intros k v v0 Hv Hv0. cbn in Hv. simplify_eq. by repeat split.
  - intros h v0 Hin. by apply elem_of_nil in Hin.
  - split; [exact K|]. split.
    + intros k v v' Hv Hv'. by apply (D k).
    + apply updateQueueItem_transactions.
Qed.

Lemma stored_records_keep_identity_witness :
  let env := serverSays None in
  let w := demoWorld [demoItem "a" 0] in
  let bump := {| u_attempts := Some 1; u_status := None; u_syncedAt := None;
                 u_lastError := None; u_lastAttempt := None |} in
  let s := transact env [TxRead "a"; TxMarkAsSynced "a"; TxWrite 0 bump]
             {| page := w; held := [] |} in
  ∃ v', db (page s) !! "a" = Some v' ∧ keepsIdentity (demoItem "a" 0) v' ∧
        attempts v' = 1 ∧ status v' = pending.
Proof.
  intros env w bump s.
  destruct (stored_records_keep_identity env
              [TxRead "a"; TxMarkAsSynced "a"; TxWrite 0 bump] w) as (_ & H & _).
  - apply keyed_demoWorld.
  - repeat constructor; cbn; done.
  - eexists. split; [reflexivity|]. split; [|split; reflexivity].
    apply (H "a"); reflexivity.
Defined.

Section QueueInvariantFacts.
Context (env : Env).

Lemma markAsSynced_page i w :
  let w' := (markAsSynced env i w).2 in
  syncQueue w' = syncQueue w ∧ sent w' = sent w ∧ timers w' = timers w ∧
  onLine w' = onLine w ∧ lastSync w' = lastSync w ∧ bgSent w' = bgSent w.
Proof. crush_store; repeat split; reflexivity. Qed.

Lemma updateRetryCount_page i w :
  let w' := (updateRetryCount env i w).2 in
  syncQueue w' = syncQueue w ∧ sent w' = sent w ∧ timers w' = timers w ∧
  onLine w' = onLine w ∧ lastSync w' = lastSync w ∧ bgSent w' = bgSent w.
Proof. crush_store; repeat split; reflexivity. Qed.

Lemma bgTry_page item w :
  let w' := (bgTry env item w).2 in
  syncQueue w' = syncQueue w ∧ sent w' = sent w ∧ timers w' = timers w ∧
  onLine w' = onLine w ∧ lastSync w' = lastSync w.
Proof.
  unfold bgTry, bgSend.
  destruct (syncToServer env (length (bgSent w)) item); [|done].
  pose proof (markAsSynced_page (id item) (with_bgSent (bgSent w ++ [item]) w)) as F.
  destruct (markAsSynced env (id item) _) as [[|e] w2]; cbn in *; tauto.
Qed.

Lemma bgLoop_page items w :
  let w' := (bgLoop env items w).2 in
  syncQueue w' = syncQueue w ∧ sent w' = sent w ∧ timers w' = timers w ∧
  onLine w' = onLine w ∧ lastSync w' = lastSync w.
Proof.
  revert w. induction items as [|item rest IH]; intros w; [done|].
  cbn [bgLoop]. pose proof (bgTry_page item w) as F.
  destruct (bgTry env item w) as [[|] w2]; cbn in F.
  - specialize (IH w2). cbn in IH.
    destruct F as (?&?&?&?&?), IH as (?&?&?&?&?). repeat split; congruence.
  - pose proof (updateRetryCount_page (id item) w2) as F2.
    destruct (updateRetryCount env (id item) w2) as [[|e2] w3]; cbn in F2 |- *.
    + specialize (IH w3). cbn in IH.
      destruct F as (?&?&?&?&?), F2 as (?&?&?&?&?&?), IH as (?&?&?&?&?).
      repeat split; congruence.
    + destruct F as (?&?&?&?&?), F2 as (?&?&?&?&?&?). repeat split; congruence.
Qed.

Lemma syncPendingData_page w :
  let w' := syncPendingData env w in
  syncQueue w' = syncQueue w ∧ sent w' = sent w ∧ timers w' = timers w ∧
  onLine w' = onLine w ∧ lastSync w' = lastSync w.
Proof.
  unfold syncPendingData, getPendingSyncItems, request. cbn.
  destruct (fault env (requests w)); [done|]. cbn.
  destruct (fault env (S (requests w))); [done|].
  match goal with |- context [bgLoop env ?l ?x] => exact (bgLoop_page l x) end.
Qed.

Lemma processQueue_wellQueued w :
  Forall wellQueued (syncQueue w) →
  Forall wellQueued (syncQueue (processQueue env w).2).
Proof.
  rewrite !Forall_forall. intros H b Hb.
  destruct (drain_attempts_in_queue env w b Hb) as (a & Ha & [-> | [Hlt ->]]).
  - by apply H.
  - destruct (H a Ha) as [Hs _]. split; [done|]. cbn. lia.
Qed.

Lemma enqueue_queue d w :
  ∃ item, syncQueue (enqueue env d w).2 = syncQueue w ++ [item] ∧
          status item = pending ∧ attempts item = 0.
Proof.
  unfold enqueue, saveQueueItem, addItem, request, Date_now. cbn.
  destruct (fault env (requests w)); cbn; [eexists; by split|].
  match goal with |- context [db w !! ?i] => destruct (db w !! i) end;
    cbn; eexists; by split.
Qed.

Lemma apply_wellQueued w op :
  Forall wellQueued (syncQueue w) →
  Forall wellQueued (syncQueue (apply env w op)).
Proof.
  intros H. destruct op as [d| | |b|]; cbn [apply].
  - unfold addToQueue. destruct (enqueue_queue d w) as (item & Hq & Hs & Ha).
    destruct (enqueue env d w) as [[x|e] w3]; cbn in Hq |- *.
    + assert (Forall wellQueued (syncQueue w3)) as H3.
      { rewrite Hq. apply Forall_app. split; [done|].
        apply Forall_singleton. split; [done | lia]. }
      destruct (onLine w3); [by apply processQueue_wellQueued | done].
    + rewrite Hq. apply Forall_app. split; [done|].
      apply Forall_singleton. split; [done | lia].
  - by apply processQueue_wellQueued.
  - by destruct (syncPendingData_page w) as (-> & _).
  - destruct b; [|done]. by apply (processQueue_wellQueued (with_onLine true w)).
  - destruct (timers w); [done|]. unfold retryCallback.
    destruct (_ && _); [|done].
    by apply (processQueue_wellQueued (with_timers (tail _) w)).
Qed.

End QueueInvariantFacts.

(** X8: across any sequence of enqueues, drains, background syncs,
    connectivity changes and retry timers, every item of the in-memory
    queue keeps status pending and never has more than [maxRetries]
    attempts: the bound that the stored record can exceed is never
    exceeded in [this.syncQueue]. *)
Theorem queue_items_stay_pending_and_bounded (env : Env) (ops : list Op) (w : World) :
  (∀ item, item ∈ syncQueue w → status item = pending ∧ attempts item ≤ maxRetries) →
  ∀ item, item ∈ syncQueue (run env ops w) →
    status item = pending ∧ attempts item ≤ maxRetries.
Proof.
  intros H. apply Forall_forall. apply Forall_forall in H.
  revert w H. induction ops as [|op ops IH]; intros w H; [done|].
  change (run env (op :: ops) w) with (run env ops (apply env w op)).
  apply IH. by apply apply_wellQueued.
Qed.

Lemma queue_items_stay_pending_and_bounded_witness :
  let env := serverSays (Some "Invalid data format") in
  let ops := [OpEnqueue demoDescriptor; OpDrain; OpBackgroundSync; OpDrain; OpDrain; OpDrain] in
  Forall (λ item, status item = pending ∧ attempts item ≤ maxRetries)
    (syncQueue (run env ops (initial true))).
Proof.
  intros env ops. apply Forall_forall.
  apply (queue_items_stay_pending_and_bounded env ops (initial true)).
  intros item Hin. by apply elem_of_nil in Hin.
Defined.

(** ** Deliveries of a pass *)

Section DeliveryFacts.
Context (env : Env).

(** The deliveries of a loop are those of the items it visited, in order:
    one for each visited item below the retry bound. *)
Lemma forOf_sent_order items p w :
  ∃ n, n ≤ length items ∧
    sent (forOf env items p w).1.2 =
      sent w ++ (bumped <$> filter (λ it, attempts it < maxRetries) (take n items)) ∧
    ((forOf env items p w).2 = false → n = length items).
Proof.
  revert p w. induction items as [|item rest IH]; intros p w.
  { exists 0. cbn. by rewrite app_nil_r. }
  rewrite forOf_cons.
  destruct (iteration_cases env item p w) as [[Hge E] | (Hlt & w' & Hs & E)].
  - rewrite E. destruct (IH (push_failed item "Max retries exceeded" p) w)
      as (n & Hn & Hsent & Hall).
    destruct (forOf env rest _ w) as [[[rest1 p2] w2] brk2]. cbn in Hsent, Hall |- *.
    exists (S n). split; [lia|]. cbn [take]. rewrite filter_cons_False by lia.
    split; [done|]. intros Hb. by rewrite Hall.
  - assert (∀ (p1 : Pass) (b : bool), ∃ n, n ≤ length (item :: rest) ∧
        sent (if b then (bumped item :: rest, p1, w', true)
              else let '(rest1, p2, w2, brk2) := forOf env rest p1 w' in
                   (bumped item :: rest1, p2, w2, brk2)).1.2 =
          sent w ++ (bumped <$> filter (λ it, attempts it < maxRetries)
                                  (take n (item :: rest))) ∧
        ((if b then (bumped item :: rest, p1, w', true)
          else let '(rest1, p2, w2, brk2) := forOf env rest p1 w' in
               (bumped item :: rest1, p2, w2, brk2)).2 = false →
         n = length (item :: rest))) as G.
    { intros p1 b. destruct b.
      - exists 1. cbn [take length]. rewrite filter_cons_True by done.
        split; [lia|]. split; [by rewrite take_0 | done].
      - destruct (IH p1 w') as (n & Hn & Hsent & Hall).
        destruct (forOf env rest p1 w') as [[[rest1 p2] w2] brk2].
        cbn in Hsent, Hall |- *. exists (S n). split; [lia|].
        cbn [take]. rewrite filter_cons_True by done. split.
        + rewrite Hsent, Hs, <- app_assoc. done.
        + intros Hb. by rewrite Hall. }
    destruct E as [[_ E] | (msg & _ & E)]; rewrite E;
      [exact (G (push_success (id item) p) false)
      | exact (G (push_failed (bumped item) msg p) (isNetworkError msg))].
Qed.

(** A loop over items that are all below the bound, against a server that
    accepts everything. *)
Lemma forOf_all_accepted items p w :
  (∀ n it, send env n it = None) →
  Forall (λ it, attempts it < maxRetries) items →
  (forOf env items p w).1.1.1 = bumped <$> items ∧
  successItems (forOf env items p w).1.1.2 = successItems p ++ (id <$> items) ∧
  failedItems (forOf env items p w).1.1.2 = failedItems p ∧
  (forOf env items p w).2 = false ∧
  sent (forOf env items p w).1.2 = sent w ++ (bumped <$> items).
Proof.
  intros Hsend. revert p w. induction items as [|item rest IH]; intros p w Hall.
  { cbn. by rewrite !app_nil_r. }
  apply Forall_cons in Hall as [Hlt Hall]. rewrite forOf_cons.
  destruct (iteration_attempt env item p w Hlt) as (w' & -> & Hs).
  rewrite Hsend.
  destruct (IH (push_success (id item) p) w' Hall) as (H1 & H2 & H3 & H4 & H5).
  destruct (forOf env rest _ w') as [[[rest1 p2] w2] brk2]. cbn in *.
  rewrite H1, H2, H5, Hs, <- !app_assoc. done.
Qed.

Lemma filter_none {A} (P : A → Prop) `{∀ x, Decision (P x)} (l : list A) :
  (∀ x, x ∈ l → ¬ P x) → filter P l = [].
Proof.
  induction l as [|a l IH]; intros H'; [done|].
  rewrite filter_cons_False by (apply H'; left).
  apply IH. intros x Hx. apply H'. by right.
Qed.

(** An accepted delivery leaves the item's stored record synced, when the
    record exists and storage works. *)
Lemma iteration_accepted_synced item p w v :
  keyed (db w) → (∀ n, fault env n = false) → (∀ n it, send env n it = None) →
  attempts item < maxRetries → db w !! id item = Some v →
  ∃ v', db (iteration env item p w).1.2 !! id item = Some v' ∧ status v' = synced.
Proof.
  intros Hk Hf Hsend Hlt Hv. unfold iteration.
  destruct (maxRetries <=? attempts item) eqn:E.
  { apply Nat.leb_le in E. lia. }
  change (id (bumped item)) with (id item).
  unfold updateQueueItem, getItem, updateItem, request, sendToServer, Date_now.
  cbn. rewrite !Hf. cbn. rewrite Hv. cbn. rewrite ?Hf. cbn. rewrite ?Hsend. cbn.
  rewrite ?Hf. cbn. rewrite (Hk _ _ Hv), lookup_insert_eq. cbn.
  rewrite ?(Hk _ _ Hv), lookup_insert_eq. eauto.
Qed.

Lemma forOf_accepted_synced items p w item :
  keyed (db w) → (∀ n, fault env n = false) → (∀ n it, send env n it = None) →
  Forall (λ it, attempts it < maxRetries) items →
  item ∈ items → is_Some (db w !! id item) →
  ∃ v', db (forOf env items p w).1.2 !! id item = Some v' ∧ status v' = synced.
Proof.
  intros Hk Hf Hsend. revert p w Hk.
  induction items as [|x rest IH]; intros p w Hk Hall Hin Hsome.
  { by apply elem_of_nil in Hin. }
  apply Forall_cons in Hall as [Hlt Hall]. rewrite forOf_cons.
  pose proof (iteration_advances env x p w Hk) as A.
  pose proof (iteration_keyed env x p w Hk) as K.
  assert (∀ v, db w !! id x = Some v →
            ∃ v', db (iteration env x p w).1.2 !! id x = Some v' ∧ status v' = synced)
    as Hx by (intros v; by apply iteration_accepted_synced).
  destruct (iteration_attempt env x p w Hlt) as (w' & E & _).
  rewrite E in A, K, Hx |- *. rewrite Hsend. cbn in A, K, Hx.
  pose proof (forOf_advances env rest (push_success (id x) p) w' K) as A2.
  destruct (decide (item ∈ rest)) as [Hr|Hr].
  - assert (is_Some (db w' !! id item)) as Hs'.
    { destruct Hsome as [v Hv]. destruct (A _ _ Hv) as (v' & -> & _). eauto. }
    specialize (IH (push_success (id x) p) w' K Hall Hr Hs').
    by destruct (forOf env rest _ w') as [[[rest1 p2] w2] brk2].
  - apply elem_of_cons in Hin as [-> | Hin]; [|done].
    destruct Hsome as [v Hv]. destruct (Hx v Hv) as (v1 & Hv1 & Hs1).
    destruct (A2 _ _ Hv1) as (v2 & Hv2 & Hadv).
    destruct (forOf env rest _ w') as [[[rest1 p2] w2] brk2]. cbn in *.
    exists v2. split; [done|]. by apply Hadv.
Qed.

End DeliveryFacts.

(** X9: in one pass deliveries follow queue order, one per item below the
    retry bound among the items the loop visited and none for the others,
    and each delivery carries the item with its attempts already
    incremented; without a break every item of the queue was visited. *)
Theorem deliveries_in_queue_order (env : Env) (w : World) :
  guard w = false →
  ∃ p brk w' n,
    processQueue env w = (Ran p brk, w') ∧ n ≤ length (syncQueue w) ∧
    sent w' = sent w ++
      (bumped <$> filter (λ it, attempts it < maxRetries) (take n (syncQueue w))) ∧
    (brk = false → n = length (syncQueue w)).
Proof.
  intros Hg. rewrite (processQueue_ran env w Hg).
  destruct (forOf_sent_order env (syncQueue w) emptyPass (with_syncInProgress true w))
    as (n & Hn & Hs & Hall).
  set (r := forOf env (syncQueue w) emptyPass (with_syncInProgress true w)) in *.
  destruct (epilogue_fields env r.1.1.2 (with_syncQueue r.1.1.1 r.1.2))
    as (_ & _ & _ & _ & Es & _).
  exists r.1.1.2, r.2, (epilogue env r.1.1.2 (with_syncQueue r.1.1.1 r.1.2)), n.
  split; [done|]. split; [done|]. split; [|done].
  rewrite Es. exact Hs.
Qed.

Lemma deliveries_in_queue_order_witness :
  let env := serverSays (Some "Network request failed") in
  let w := demoWorld [demoItem "c" 3; demoItem "a" 0; demoItem "b" 0] in
  ∃ p brk w' n,
    processQueue env w = (Ran p brk, w') ∧ n ≤ length (syncQueue w) ∧
    sent w' = sent w ++
      (bumped <$> filter (λ it, attempts it < maxRetries) (take n (syncQueue w))) ∧
    (brk = false → n = length (syncQueue w)).
Proof.
  intros env w. apply (deliveries_in_queue_order env w). reflexivity.
Defined.

(** X10: a pass in which the server accepts every delivery, over a queue
    whose items are all below the retry bound, delivers every item once in
    queue order, reports each id as a success and none as failed, leaves
    the queue empty and the flag down, and sets no retry timer; when
    storage works too, the stored record of every delivered item is left
    with status synced. *)
Theorem accepted_pass_empties_queue (env : Env) (w : World) :
  guard w = false →
  (∀ n item, send env n item = None) →
  (∀ item, item ∈ syncQueue w → attempts item < maxRetries) →
  ∃ p w',
    processQueue env w = (Ran p false, w') ∧
    successItems p = id <$> syncQueue w ∧ failedItems p = [] ∧
    sent w' = sent w ++ (bumped <$> syncQueue w) ∧
    syncQueue w' = [] ∧ syncInProgress w' = false ∧ timers w' = timers w ∧
    (keyed (db w) → (∀ n, fault env n = false) →
       ∀ item, item ∈ syncQueue w → is_Some (db w !! id item) →
         ∃ v', db w' !! id item = Some v' ∧ status v' = synced).
Proof.
  intros Hg Hsend Hall. apply Forall_forall in Hall.
  rewrite (processQueue_ran env w Hg). cbv zeta.
  set (w0 := with_syncInProgress true w).
  destruct (forOf_all_accepted env (syncQueue w) emptyPass w0 Hsend Hall)
    as (Hitems & Hsucc & Hfail & Hbrk & Hs).
  destruct (forOf_frame env (syncQueue w) emptyPass w0) as (_ & _ & _ & Ht & _).
  pose proof (forOf_accepted_synced env (syncQueue w) emptyPass w0) as Hsync.
  set (r := forOf env (syncQueue w) emptyPass w0) in *.
  destruct (epilogue_fields env r.1.1.2 (with_syncQueue r.1.1.1 r.1.2))
    as (Eq & Ef & _ & Ed & Es & _ & Et).
  cbn in Hsucc, Hfail.
  exists r.1.1.2, (epilogue env r.1.1.2 (with_syncQueue r.1.1.1 r.1.2)).
  split; [by rewrite Hbrk|]. split; [done|]. split; [done|].
  split; [by rewrite Es|]. split; [|split; [done|split]].
  - rewrite Eq. cbn. rewrite Hitems, Hsucc. apply filter_none.
    intros x (y & -> & Hy)%list_elem_of_fmap Hnot. apply Hnot.
    change (id (bumped y)) with (id y). by apply list_elem_of_fmap_2.
  - rewrite Et, Hfail. cbn. rewrite app_nil_r. exact Ht.
  - intros Hk Hf item Hin Hsome. rewrite Ed. cbn.
    by apply Hsync.
Qed.

Lemma accepted_pass_empties_queue_witness :
  let env := serverSays None in
  let w := demoWorld [demoItem "a" 0; demoItem "b" 2] in
  ∃ p w',
    processQueue env w = (Ran p false, w') ∧
    successItems p = id <$> syncQueue w ∧ failedItems p = [] ∧
    sent w' = sent w ++ (bumped <$> syncQueue w) ∧
    syncQueue w' = [] ∧ syncInProgress w' = false ∧ timers w' = timers w ∧
    (keyed (db w) → (∀ n, fault env n = false) →
       ∀ item, item ∈ syncQueue w → is_Some (db w !! id item) →
         ∃ v', db w' !! id item = Some v' ∧ status v' = synced).
Proof.
  intros env w. apply (accepted_pass_empties_queue env w).
  - reflexivity.
  - reflexivity.
  - intros item Hin. apply (bool_decide_unpack _).
    revert item Hin. apply Forall_forall. repeat constructor.
Defined.

(** ** Background sync *)

Section BackgroundFacts.
Context (env : Env).

Lemma markAsSynced_other i w k :
  keyed (db w) → k ≠ i → db (markAsSynced env i w).2 !! k = db w !! k.
Proof.
  intros Hk Hne. unfold markAsSynced, getItem, updateItem, request, Date_now. cbn.
  destruct (fault env (requests w)); cbn; [done|].
  destruct (db w !! i) as [v|] eqn:Hv; cbn; [|done].
  destruct (fault env (S (requests w))); cbn; [done|].
  rewrite lookup_insert_ne; [done|]. rewrite (Hk _ _ Hv). congruence.
Qed.

Lemma updateRetryCount_other i w k :
  keyed (db w) → k ≠ i → db (updateRetryCount env i w).2 !! k = db w !! k.
Proof.
  intros Hk Hne. unfold updateRetryCount, getItem, updateItem, request, Date_now. cbn.
  destruct (fault env (requests w)); cbn; [done|].
  destruct (db w !! i) as [v|] eqn:Hv; cbn; [|done].
  destruct (fault env (S (requests w))); cbn; [done|].
  rewrite lookup_insert_ne; [done|]. rewrite (Hk _ _ Hv). congruence.
Qed.

Lemma bgTry_other item w k :
  keyed (db w) → k ≠ id item → db (bgTry env item w).2 !! k = db w !! k.
Proof.
  intros Hk Hne. unfold bgTry, bgSend.
  destruct (syncToServer env (length (bgSent w)) item); [|done].
  pose proof (markAsSynced_other (id item) (with_bgSent (bgSent w ++ [item]) w) k Hk Hne) as H.
  by destruct (markAsSynced env (id item) _) as [[|] ?].
Qed.

(** The loop rewrites no record but those of the items it is given. *)
Lemma bgLoop_other items w k :
  keyed (db w) → k ∉ id <$> items → db (bgLoop env items w).2 !! k = db w !! k.
Proof.
  revert w. induction items as [|item rest IH]; intros w Hk Hnot; [done|].
  rewrite fmap_cons in Hnot. apply not_elem_of_cons in Hnot as [Hne Hnot].
  cbn [bgLoop]. pose proof (bgTry_other item w k Hk Hne) as O.
  destruct (bgTry_db env item w Hk) as [K _].
  destruct (bgTry env item w) as [[|] w2]; cbn in O, K.
  - rewrite IH by done. exact O.
  - pose proof (updateRetryCount_other (id item) w2 k K Hne) as O2.
    destruct (updateRetryCount_db env (id item) w2 K) as [K2 _].
    destruct (updateRetryCount env (id item) w2) as [[|e] w3]; cbn in O2, K2 |- *.
    + rewrite IH by done. congruence.
    + congruence.
Qed.

(** With the server accepting and storage working, one turn of the loop
    marks the item's record synced and touches nothing else of it. *)
Lemma bgTry_accepted item w :
  (∀ n it, syncToServer env n it = true) → (∀ n, fault env n = false) →
  keyed (db w) → db w !! id item = Some item →
  ∃ w2 v', bgTry env item w = (true, w2) ∧ bgSent w2 = bgSent w ++ [item] ∧
    db w2 !! id item = Some v' ∧ status v' = synced ∧ attempts v' = attempts item.
Proof.
  intros Hs Hf Hk Hv.
  unfold bgTry, bgSend, markAsSynced, getItem, updateItem, request, Date_now.
  rewrite Hs. cbn. rewrite !Hf. cbn. rewrite Hv. cbn. rewrite ?Hf. cbn.
  do 2 eexists. split; [reflexivity|]. split; [done|]. cbn.
  rewrite lookup_insert_eq. done.
Qed.

Lemma bgLoop_all_accepted items w :
  (∀ n it, syncToServer env n it = true) → (∀ n, fault env n = false) →
  keyed (db w) → NoDup (id <$> items) →
  (∀ item, item ∈ items → db w !! id item = Some item) →
  (∀ item, item ∈ items →
     ∃ v', db (bgLoop env items w).2 !! id item = Some v' ∧
           status v' = synced ∧ attempts v' = attempts item) ∧
  bgSent (bgLoop env items w).2 = bgSent w ++ items.
Proof.
  intros Hs Hf. revert w. induction items as [|x rest IH]; intros w Hk Hnd Hin.
  { split; [|by rewrite app_nil_r]. intros item H. by apply elem_of_nil in H. }
  rewrite fmap_cons in Hnd. apply NoDup_cons in Hnd as [Hx Hnd].
  cbn [bgLoop].
  destruct (bgTry_accepted x w Hs Hf Hk) as (w2 & v' & E & Hb & Hv' & Hst & Hat).
  { apply Hin. left. }
  pose proof (bgTry_db env x w Hk) as [K _].
  pose proof (bgTry_other x w) as O.
  rewrite E in K, O |- *. cbn in K, O.
  destruct (IH w2 K Hnd) as [H1 H2].
  { intros item Hi. rewrite O; [apply Hin; by right | done |].
    intros Heq. apply Hx. rewrite <- Heq. by apply list_elem_of_fmap_2. }
  split; [|by rewrite H2, Hb, <- app_assoc].
  intros item [-> | Hi]%elem_of_cons; [|by apply H1].
  exists v'. rewrite bgLoop_other by done. done.
Qed.

End BackgroundFacts.

(** X11: a background sync works on the store only: the page's queue,
    flag, deliveries and timers are as before. In the store it rewrites no
    record that was not pending and adds no key. *)
Theorem background_sync_touches_only_pending (env : Env) (w : World) :
  keyed (db w) →
  let w' := syncPendingData env w in
  syncQueue w' = syncQueue w ∧ syncInProgress w' = syncInProgress w ∧
  sent w' = sent w ∧ timers w' = timers w ∧
  (∀ k v, db w !! k = Some v → status v ≠ pending → db w' !! k = Some v) ∧
  (∀ k, db w !! k = None → db w' !! k = None).
Proof.
  intros Hk w'.
  destruct (syncPendingData_page env w) as (Hq & Hs & Ht & _).
  split; [done|]. split; [apply syncPendingData_flag|]. split; [done|]. split; [done|].
  assert (∀ k, (∀ v, db w !! k = Some v → status v ≠ pending) →
               db w' !! k = db w !! k) as Hother.
  { intros k Hnp. subst w'. unfold syncPendingData, getPendingSyncItems, request. cbn.
    destruct (fault env (requests w)); cbn; [done|].
    destruct (fault env (S (requests w))); cbn; [done|].
    match goal with |- context [bgLoop env ?l ?x] =>
      rewrite (bgLoop_other env l x k Hk) end; [done|].
    intros (v & -> & Hin)%list_elem_of_fmap. cbn in Hin.
    rewrite sortByKey_perm in Hin. apply list_elem_of_filter in Hin as [Hp Hin].
    apply stored_values in Hin; [|done]. by apply (Hnp v). }
  split.
  - intros k v Hv Hnp. rewrite Hother; [done|]. intros v0 Hv0. congruence.
  - intros k Hnone. rewrite Hother; [done|]. intros v0 Hv0. congruence.
Qed.

Lemma background_sync_touches_only_pending_witness :
  let env := serverSays None in
  let w := demoWorld [demoItem "a" 0; demoItem "b" 3] in
  let w' := syncPendingData env w in
  syncQueue w' = syncQueue w ∧ syncInProgress w' = syncInProgress w ∧
  sent w' = sent w ∧ timers w' = timers w ∧
  (∀ k v, db w !! k = Some v → status v ≠ pending → db w' !! k = Some v) ∧
  (∀ k, db w !! k = None → db w' !! k = None).
Proof.
  intros env w.
  apply (background_sync_touches_only_pending env w). apply keyed_demoWorld.
Defined.

(** X12: when the worker's server accepts every delivery and storage
    works, a background sync delivers every pending record once, in key
    order, and leaves each of them synced with its attempts unchanged, so
    that no pending record remains in the store. *)
Theorem background_sync_all_accepted (env : Env) (w : World) :
  keyed (db w) →
  (∀ n item, syncToServer env n item = true) →
  (∀ n, fault env n = false) →
  let w' := syncPendingData env w in
  bgSent w' = bgSent w ++
    sortByKey (filter (λ item, status item = pending) (map_to_list (db w)).*2) ∧
  (∀ k v, db w !! k = Some v → status v = pending →
     ∃ v', db w' !! k = Some v' ∧ status v' = synced ∧ attempts v' = attempts v) ∧
  (∀ k v', db w' !! k = Some v' → status v' ≠ pending).
Proof.
  intros Hk Hs Hf w'.
  set (l := sortByKey (filter (λ item, status item = pending) (map_to_list (db w)).*2)).
  assert (∀ item, item ∈ l ↔ db w !! id item = Some item ∧ status item = pending) as Hl.
  { intros item. subst l. rewrite sortByKey_perm, list_elem_of_filter, stored_values by done.
    tauto. }
  assert (w' = (bgLoop env l
            (with_requests (S (S (requests w))) (with_requests (S (requests w)) w))).2)
    as Hw'.
  { subst w'. unfold syncPendingData, getPendingSyncItems, request. cbn.
    rewrite ?Hf. cbn. rewrite ?Hf. done. }
  set (w1 := with_requests (S (S (requests w))) (with_requests (S (requests w)) w)) in *.
  destruct (bgLoop_all_accepted env l w1 Hs Hf Hk) as [Hall Hsent].
  { by apply stored_ids_NoDup. }
  { intros item Hi. by apply Hl. }
  assert (∀ k, k ∉ id <$> l → db w' !! k = db w !! k) as Hother.
  { intros k Hnot. rewrite Hw'. by apply (bgLoop_other env l w1 k Hk). }
  rewrite <- Hw' in Hall, Hsent.
  assert (∀ k v, db w !! k = Some v → status v = pending →
            ∃ v', db w' !! k = Some v' ∧ status v' = synced ∧
                  attempts v' = attempts v) as Hsynced.
  { intros k v Hv Hp. rewrite <- (Hk _ _ Hv). apply Hall. apply Hl.
    by rewrite (Hk _ _ Hv). }
  split; [exact Hsent|]. split; [exact Hsynced|].
  intros k v' Hv' Hp.
  destruct (db w !! k) as [v|] eqn:Hv.
  - destruct (decide (status v = pending)) as [Hvp|Hvp].
    + destruct (Hsynced k v Hv Hvp) as (v2 & Hv2 & Hs2 & _). congruence.
    + rewrite Hother in Hv'; [congruence|].
      intros (x & -> & Hx)%list_elem_of_fmap. apply Hl in Hx as [Hx1 Hx2]. congruence.
  - rewrite Hother in Hv'; [congruence|].
    intros (x & -> & Hx)%list_elem_of_fmap. apply Hl in Hx as [Hx1 Hx2]. congruence.
Qed.

Lemma background_sync_all_accepted_witness :
  let env := {| send := λ _ _, None; syncToServer := λ _ _, true;
                fault := λ _, false; clock := λ n, n; mkId := λ _, "k1" |} in
  let w := demoWorld [demoItem "a" 0; demoItem "b" 3] in
  let w' := syncPendingData env w in
  bgSent w' = bgSent w ++
    sortByKey (filter (λ item, status item = pending) (map_to_list (db w)).*2) ∧
  (∀ k v, db w !! k = Some v → status v = pending →
     ∃ v', db w' !! k = Some v' ∧ status v' = synced ∧ attempts v' = attempts v) ∧
  (∀ k v', db w' !! k = Some v' → status v' ≠ pending).
Proof.
  intros env w.
  apply (background_sync_all_accepted env w); [apply keyed_demoWorld | done | done].
Defined.

(** ** Strategies and their partitions *)

Ltac unfold_strategies :=
  unfold apiStrategy, apiFirstStrategy, imageStrategy, staticStrategy,
    htmlStrategy, networkFirstStrategy, caches_open, fetch, cache_match,
    cache_put, toISOString_now in *.

Ltac crush_strategies :=
  unfold_strategies; cbn in *;
  repeat (case_match; cbn in *; simplify_eq); cbn in *;
  rewrite ?lookup_insert_ne by done; auto.

Section PartitionFacts.
Context (io : Net).
Context (storageMatch : gmap string (gmap string Response) → string → option Response).




Lemma cache_match_put_other name req resp sw r :
  url r ≠ url req →
  cache_match name r (cache_put name req resp sw) = cache_match name r sw.
Proof.
  intros Hne. unfold cache_match, cache_put.
  destruct (storable req resp); [|done]. cbn. rewrite lookup_insert_eq. cbn.
  rewrite lookup_insert_ne by done. by destruct (caches sw !! name).
Qed.

End PartitionFacts.

(** X13: the four network-first strategies hand the request to [fetch]
    exactly once in every case, and whenever the network answers they
    return that answer, whatever their partition holds. *)
Theorem network_first_asks_network (io : Net)
    (storageMatch : gmap string (gmap string Response) → string → option Response)
    (req : Request) (sw : Worker) :
  (fetched (apiStrategy io req sw).2 = fetched sw ++ [req] ∧
   fetched (apiFirstStrategy io req sw).2 = fetched sw ++ [req] ∧
   fetched (htmlStrategy io storageMatch req sw).2 = fetched sw ++ [req] ∧
   fetched (networkFirstStrategy io req sw).2 = fetched sw ++ [req]) ∧
  (∀ resp, net io (length (fetched sw)) req = Some resp →
     (apiStrategy io req sw).1 = Resolved resp ∧
     (apiFirstStrategy io req sw).1 = Resolved resp ∧
     (htmlStrategy io storageMatch req sw).1 = Resolved (Some resp) ∧
     (networkFirstStrategy io req sw).1 = Resolved resp).
Proof.
  split.
  - repeat split; crush_strategies.
  - intros resp Hnet. repeat split; crush_strategies.
Qed.

Lemma network_first_asks_network_witness :
  let io := {| net := λ _ _, Some (demoResponse "[]"); isoDate := λ _, "t" |} in
  let req := demoRequest "/api/prices" in
  (apiStrategy io req warmWorker).1 = Resolved (demoResponse "[]") ∧
  (apiFirstStrategy io req warmWorker).1 = Resolved (demoResponse "[]") ∧
  (htmlStrategy io (λ _ _, None) req warmWorker).1 = Resolved (Some (demoResponse "[]")) ∧
  (networkFirstStrategy io req warmWorker).1 = Resolved (demoResponse "[]").
Proof.
  intros io req.
  destruct (network_first_asks_network io (λ _ _, None) req warmWorker) as [_ H].
  apply H. reflexivity.
Defined.

Section RoundTripFacts.
Context (io : Net).





End RoundTripFacts.





(** X16: every strategy keeps to its own partition. No strategy changes a
    partition other than the one it is named for (API, image, static,
    dynamic), and in its own partition none changes the entry of any URL
    other than the one requested. *)
Theorem strategies_keep_to_their_partition (io : Net)
    (storageMatch : gmap string (gmap string Response) → string → option Response)
    (req : Request) (sw : Worker) (name : string) (other : Request) :
  (name ≠ API_CACHE ∨ url other ≠ url req →
     cache_match name other (apiStrategy io req sw).2 = cache_match name other sw ∧
     cache_match name other (apiFirstStrategy io req sw).2 = cache_match name other sw) ∧
  (name ≠ IMAGE_CACHE ∨ url other ≠ url req →
     cache_match name other (imageStrategy io req sw).2 = cache_match name other sw) ∧
  (cache_match name other (staticStrategy io req sw).2 = cache_match name other sw) ∧
  (name ≠ DYNAMIC_CACHE ∨ url other ≠ url req →
     cache_match name other (htmlStrategy io storageMatch req sw).2
       = cache_match name other sw ∧
     cache_match name other (networkFirstStrategy io req sw).2
       = cache_match name other sw).
Proof.
  assert (∀ P (m : gmap string (gmap string Response)) resp,
            name ≠ P ∨ url other ≠ url req →
            <[P := <[url req := resp]> (default ∅ (m !! P))]> m !! name
              ≫= (λ c : gmap string Response, c !! url other)
            = m !! name ≫= (λ c, c !! url other)) as Hput.
  { intros P m resp Hor. destruct (decide (name = P)) as [->|Hn].
    - rewrite lookup_insert_eq. cbn. destruct Hor as [?|Hu]; [done|].
      rewrite lookup_insert_ne by done.
      destruct (m !! P); cbn; [done | by rewrite lookup_empty].
    - by rewrite lookup_insert_ne. }
  assert (∀ P (m : gmap string (gmap string Response)),
            m !! P = None →
            <[P := ∅]> m !! name ≫= (λ c : gmap string Response, c !! url other)
            = m !! name ≫= (λ c, c !! url other)) as Hopen.
  { intros P m Hm. destruct (decide (name = P)) as [->|Hn].
    - by rewrite lookup_insert_eq, Hm.
    - by rewrite lookup_insert_ne. }
  repeat split; intros; crush_strategies; rewrite Hput by assumption; auto.
Qed.

Lemma strategies_keep_to_their_partition_witness :
  let io := {| net := λ _ _, Some (demoResponse "[]"); isoDate := λ _, "t" |} in
  let req := demoRequest "/api/prices" in
  let other := demoRequest "/css/style.css" in
  cache_match CACHE_NAME other (apiStrategy io req warmWorker).2
    = cache_match CACHE_NAME other warmWorker ∧
  cache_match CACHE_NAME other (apiFirstStrategy io req warmWorker).2
    = cache_match CACHE_NAME other warmWorker.
Proof.
  intros io req other.
  destruct (strategies_keep_to_their_partition io (λ _ _, None) req warmWorker
              CACHE_NAME other) as [H _].
  apply H. left. done.
Defined.


